(** * styxproto/decoder.go: the buffering and windowing engine of the 9P decoder

    A shallow embedding of [styxproto.Decoder] together with the parts of the
    Go standard library it stands on ([io.Reader], [bufio.Reader], [io.CopyN]
    into [ioutil.Discard]), followed by the properties of the decoder. *)

From Stdlib Require Import String.
From Stdlib Require Import ZArith List Lia Bool.
From Stdlib.Strings Require Import Byte.
Import ListNotations.
Open Scope Z_scope.

Set Implicit Arguments.

(** ** Machine integers

    [int] is 64 bits wide on the platforms the package targets; [maxInt] is
    the package constant for the largest [int]. Arithmetic on [int] wraps. *)

Definition maxInt : Z := 2 ^ 63 - 1.
Definition minInt : Z := - 2 ^ 63.

Definition wrap (x : Z) : Z := (x + 2 ^ 63) mod 2 ^ 64 - 2 ^ 63.

Definition int_add (x y : Z) : Z := wrap (x + y).
Definition int_sub (x y : Z) : Z := wrap (x - y).

Definition is_int (x : Z) : Prop := minInt <= x <= maxInt.

(** ** Errors and outcomes *)

Inductive error : Type :=
| EOF                       (* io.EOF *)
| ErrUnexpectedEOF          (* io.ErrUnexpectedEOF *)
| ErrNoProgress             (* io.ErrNoProgress *)
| ErrBufferFull             (* bufio.ErrBufferFull *)
| ErrNegativeCount          (* bufio.ErrNegativeCount *)
| errFillOverflow           (* errors.New("cannot fill buffer past maxInt") *)
| ErrDevice (what : string) (* any other error of the I/O device *).

Definition error_eqb (a b : error) : bool :=
  match a, b with
  | EOF, EOF | ErrUnexpectedEOF, ErrUnexpectedEOF
  | ErrNoProgress, ErrNoProgress | ErrBufferFull, ErrBufferFull
  | ErrNegativeCount, ErrNegativeCount
  | errFillOverflow, errFillOverflow => true
  | ErrDevice x, ErrDevice y => String.eqb x y
  | _, _ => false
  end.

Definition Error (e : error) : string :=
  match e with
  | EOF => "EOF"
  | ErrUnexpectedEOF => "unexpected EOF"
  | ErrNoProgress => "multiple Read calls return no data or error"
  | ErrBufferFull => "bufio: buffer full"
  | ErrNegativeCount => "bufio: negative count"
  | errFillOverflow => "cannot fill buffer past maxInt"
  | ErrDevice what => what
  end.

(** A call returns normally, panics, or exceeds the iteration bound the model
    puts on a library loop. The theorems show the bound is never exceeded. *)
Inductive outcome (A : Type) : Type :=
| Ret (a : A)
| Panic (v : string)
| Diverge.
Arguments Panic {A} v.
Arguments Diverge {A}.

Definition obind {A B} (x : outcome A) (k : A -> outcome B) : outcome B :=
  match x with
  | Ret a => k a
  | Panic v => Panic v
  | Diverge => Diverge
  end.

(** A Go [[]byte] that points into a reader's internal array: the window
    [buf[off : off+len]]. Two slices over the same array alias. *)
Record slice : Type := { off : nat; len : nat }.

(** [sl[i:]] *)
Definition slice_from (sl : slice) (i : Z) : outcome slice :=
  if (i <? 0) || (Z.of_nat (len sl) <? i)
  then Panic "slice bounds out of range"
  else Ret {| off := off sl + Z.to_nat i; len := len sl - Z.to_nat i |}.

(** ** package io *)
Module io.

(** An input device: the reads it will still answer, one chunk per call to
    Read, and the error it reports once they are used up. *)
Record Reader : Type := { chunks : list (list byte); final : error }.

(** [Read(p)] with [len(p) = cap]. *)
Definition Read (s : Reader) (cap : nat) : Reader * list byte * option error :=
  match chunks s with
  | [] => (s, [], Some (final s))
  | c :: rest =>
      let rem := skipn cap c in
      ({| chunks := match rem with [] => rest | _ => rem :: rest end;
          final := final s |},
       firstn cap c, None)
  end.

(** Everything the device will still deliver. *)
Definition remaining (s : Reader) : list byte := concat (chunks s).

(** Every read the device still answers delivers at least one byte. *)
Definition steady (s : Reader) : Prop := Forall (fun c => c <> []) (chunks s).

End io.

(** ** package bufio *)
Module bufio.

Definition minReadBufferSize : Z := 16.
Definition maxConsecutiveEmptyReads : nat := 100.

Record Reader : Type := {
  buf : list byte;       (* the internal array, of fixed length *)
  rd  : io.Reader;       (* reader provided by the client *)
  r   : nat;             (* buf read position *)
  w   : nat;             (* buf write position *)
  err : option error
}.

(** [0 <= r <= w <= len(buf)], and [len(buf)] is an [int]. *)
Definition wf (b : Reader) : Prop :=
  (r b <= w b <= length (buf b))%nat /\ Z.of_nat (length (buf b)) <= maxInt.

(** [copy(dst[at:], data)] *)
Definition copy_at (dst : list byte) (at_ : nat) (data : list byte) : list byte :=
  firstn at_ dst ++ data ++ skipn (at_ + length data) dst.

(** [b.buf[b.r:b.w]] *)
Definition buffered (b : Reader) : list byte :=
  firstn (w b - r b) (skipn (r b) (buf b)).

(** The contents of a slice of the internal array. *)
Definition view (b : Reader) (sl : slice) : list byte :=
  firstn (len sl) (skipn (off sl) (buf b)).

(** The bytes this reader will still hand out, in order. *)
Definition pending (b : Reader) : list byte := buffered b ++ io.remaining (rd b).

(** [b'] is [b] after more input was buffered: same array size, the bytes
    buffered before still in front, nothing lost from the stream. *)
Definition grows (b b' : Reader) : Prop :=
  length (buf b') = length (buf b) /\ wf b' /\ pending b' = pending b /\
  exists extra, buffered b' = buffered b ++ extra.

(** The device behind the reader is steady, and an error is stored only once
    the device is at its end, in which case it is the device's own. *)
Definition settled (b : Reader) : Prop :=
  io.steady (rd b) /\
  (err b = None \/ (err b = Some (io.final (rd b)) /\ io.chunks (rd b) = [])).

(** The reader can hand out [n] more bytes without meeting an error:
    they are buffered already, or no error is stored and the device still
    delivers them. *)
Definition supplies (b : Reader) (n : Z) : Prop :=
  n <= Z.of_nat (length (buffered b)) \/
  (err b = None /\ n <= Z.of_nat (length (pending b))).

Definition NewReaderSize (src : io.Reader) (size : Z) : Reader :=
  {| buf := repeat x00 (Z.to_nat (Z.max size minReadBufferSize));
     rd := src; r := 0; w := 0; err := None |}.

Definition Reset (b : Reader) (src : io.Reader) : Reader :=
  {| buf := buf b; rd := src; r := 0; w := 0; err := None |}.

Definition Buffered (b : Reader) : Z := Z.of_nat (w b - r b).

Fixpoint fill_reads (i : nat) (b : Reader) : Reader :=
  match i with
  | O => {| buf := buf b; rd := rd b; r := r b; w := w b; err := Some ErrNoProgress |}
  | S i' =>
      let '(src, data, e) := io.Read (rd b) (length (buf b) - w b) in
      let b' := {| buf := copy_at (buf b) (w b) data; rd := src; r := r b;
                   w := w b + length data; err := err b |} in
      match e with
      | Some e => {| buf := buf b'; rd := rd b'; r := r b'; w := w b'; err := Some e |}
      | None => if (0 <? length data)%nat then b' else fill_reads i' b'
      end
  end.

Definition fill (b : Reader) : outcome Reader :=
  let b1 := if (0 <? r b)%nat
            then {| buf := copy_at (buf b) 0 (buffered b); rd := rd b; r := 0;
                    w := w b - r b; err := err b |}
            else b in
  if (length (buf b1) <=? w b1)%nat then Panic "bufio: tried to fill full buffer"
  else Ret (fill_reads maxConsecutiveEmptyReads b1).

(** The loop of Peek:
    [for b.w-b.r < n && b.w-b.r < len(b.buf) && b.err == nil { b.fill() }]. *)
Fixpoint Peek_loop (fuel : nat) (b : Reader) (n : Z) : outcome Reader :=
  if (Buffered b <? n) && (Buffered b <? Z.of_nat (length (buf b)))
     && match err b with None => true | Some _ => false end
  then match fuel with
       | O => Diverge
       | S fuel' => obind (fill b) (fun b' => Peek_loop fuel' b' n)
       end
  else Ret b.

Definition readErr (b : Reader) : Reader * option error :=
  ({| buf := buf b; rd := rd b; r := r b; w := w b; err := None |}, err b).

Definition Peek (b : Reader) (n : Z) : outcome (Reader * slice * option error) :=
  if n <? 0 then Ret (b, {| off := 0; len := 0 |}, Some ErrNegativeCount)
  else
    obind (Peek_loop (S (length (buf b))) b n) (fun b =>
    if Z.of_nat (length (buf b)) <? n
    then Ret (b, {| off := r b; len := w b - r b |}, Some ErrBufferFull)
    else if Buffered b <? n
    then let '(b', e) := readErr b in
         Ret (b', {| off := r b; len := w b - r b |},
              Some match e with Some e => e | None => ErrBufferFull end)
    else Ret (b, {| off := r b; len := Z.to_nat n |}, None)).

(** [b.Read(p)] with [len(p) = cap]; the bytes copied out are dropped, only
    their number is kept. *)
Definition Read (b : Reader) (cap : nat) : Reader * nat * option error :=
  if (cap =? 0)%nat then
    if (0 <? w b - r b)%nat then (b, 0%nat, None)
    else let '(b', e) := readErr b in (b', 0%nat, e)
  else
    let refill : Reader * option (nat * option error) :=
      if (r b =? w b)%nat then
        match err b with
        | Some _ => let '(b', e) := readErr b in (b', Some (0%nat, e))
        | None =>
            if (length (buf b) <=? cap)%nat then
              let '(src, data, e) := io.Read (rd b) cap in
              ({| buf := buf b; rd := src; r := r b; w := w b; err := None |},
               Some (length data, e))
            else
              let '(src, data, e) := io.Read (rd b) (length (buf b)) in
              match data with
              | [] => ({| buf := buf b; rd := src; r := 0; w := 0; err := None |},
                       Some (0%nat, e))
              | _ => ({| buf := copy_at (buf b) 0 data; rd := src; r := 0;
                         w := length data; err := e |}, None)
              end
        end
      else (b, None) in
    match refill with
    | (b', Some (n, e)) => (b', n, e)
    | (b', None) =>
        let n := Nat.min cap (w b' - r b') in
        ({| buf := buf b'; rd := rd b'; r := r b' + n; w := w b'; err := err b' |},
         n, None)
    end.

End bufio.

(** ** io.CopyN(ioutil.Discard, r, n) on a buffered reader

    [io.Copy(ioutil.Discard, io.LimitReader(r, n))] runs the ReadFrom loop of
    the discarding writer over a limited reader: reads of at most 8192 bytes,
    never more than the [N] bytes still allowed; it stops when the limit is
    used up or when a read reports an error, and end of input is not an error
    for it. It yields the reader, the number of bytes written and the error. *)
Fixpoint Copy_Discard_Limit (fuel : nat) (b : bufio.Reader) (N written : Z)
  : outcome (bufio.Reader * Z * option error) :=
  if N <=? 0 then Ret (b, written, None)
  else
    match fuel with
    | O => Diverge
    | S fuel' =>
        let '(b', k, e) := bufio.Read b (Z.to_nat (Z.min 8192 N)) in
        match e with
        | Some e => Ret (b', written + Z.of_nat k,
                         if error_eqb e EOF then None else Some e)
        | None => Copy_Discard_Limit fuel' b' (N - Z.of_nat k) (written + Z.of_nat k)
        end
    end.

Definition CopyN_Discard (b : bufio.Reader) (n : Z)
  : outcome (bufio.Reader * Z * option error) :=
  obind (Copy_Discard_Limit
           (S (Z.to_nat n + length (io.chunks (bufio.rd b)))) b n 0)
        (fun '(b', written, e) =>
           if written =? n then Ret (b', n, None)
           else match e with
                | None => if written <? n then Ret (b', written, Some EOF)
                          else Ret (b', written, None)
                | Some e => Ret (b', written, Some e)
                end).

(** ** package styxproto *)

(** Modelled from the spec: the [Msg] interface, declared elsewhere in the
    package. The decoder uses two things of a message: [nbytes()], its length
    in the stream, and whether it is also an [io.Reader] for a body that is
    streamed from the input. For such a message [drain] is what
    [io.Copy(ioutil.Discard, r)] does: it reads the rest of the body from the
    decoder's input device and returns the error met, [None] when the body
    ended normally. The content of a message is not copied: [bytes] is the
    span of the window buffer's array it was recognised in. *)
Record Msg : Type := {
  nbytes : Z;
  bytes  : slice;
  drain  : option (io.Reader -> io.Reader * option error)
}.

(** The decoder. The field [r] of the source and the reader inside [br] are
    one and the same device: its state is kept once, in [bufio.rd (br d)]. *)
Record Decoder : Type := {
  MaxSize : Z;
  br      : bufio.Reader;
  start   : Z;
  pos     : Z;
  msg     : list Msg;
  err     : option error
}.

Definition r (d : Decoder) : io.Reader := bufio.rd (br d).

Definition set_br (d : Decoder) (b : bufio.Reader) : Decoder :=
  {| MaxSize := MaxSize d; br := b; start := start d; pos := pos d;
     msg := msg d; err := err d |}.
Definition set_start (d : Decoder) (x : Z) : Decoder :=
  {| MaxSize := MaxSize d; br := br d; start := x; pos := pos d;
     msg := msg d; err := err d |}.
Definition set_pos (d : Decoder) (x : Z) : Decoder :=
  {| MaxSize := MaxSize d; br := br d; start := start d; pos := x;
     msg := msg d; err := err d |}.
Definition set_msg (d : Decoder) (ms : list Msg) : Decoder :=
  {| MaxSize := MaxSize d; br := br d; start := start d; pos := pos d;
     msg := ms; err := err d |}.
Definition set_err (d : Decoder) (e : option error) : Decoder :=
  {| MaxSize := MaxSize d; br := br d; start := start d; pos := pos d;
     msg := msg d; err := e |}.
Definition set_MaxSize (d : Decoder) (x : Z) : Decoder :=
  {| MaxSize := x; br := br d; start := start d; pos := pos d;
     msg := msg d; err := err d |}.
Definition set_r (d : Decoder) (src : io.Reader) : Decoder :=
  set_br d {| bufio.buf := bufio.buf (br d); bufio.rd := src;
              bufio.r := bufio.r (br d); bufio.w := bufio.w (br d);
              bufio.err := bufio.err (br d) |}.

(** Methods of the decoder: state passing, with panics. *)
Definition M (A : Type) : Type := Decoder -> outcome (A * Decoder).

Definition ret {A} (a : A) : M A := fun d => Ret (a, d).
Definition bind {A B} (c : M A) (k : A -> M B) : M B :=
  fun d => obind (c d) (fun '(a, d') => k a d').

Declare Scope go_scope.
Delimit Scope go_scope with go.
Notation "x <- c ;; k" := (bind c (fun x => k))
  (at level 61, c at next level, right associativity) : go_scope.
Notation "c ;; k" := (bind c (fun _ => k))
  (at level 61, right associativity) : go_scope.
Open Scope go_scope.

Section Construct.

(** Package constants declared elsewhere in the package. *)
Variable MinBufSize : Z.
Variable DefaultBufSize : Z.

Definition NewDecoderSize (src : io.Reader) (bufsize : Z) : Decoder :=
  let bufsize := if bufsize <? MinBufSize then MinBufSize else bufsize in
  {| MaxSize := -1; br := bufio.NewReaderSize src bufsize;
     start := 0; pos := 0; msg := []; err := None |}.


End Construct.

Definition Reset (d : Decoder) (src : io.Reader) : Decoder :=
  {| MaxSize := -1; br := bufio.Reset (br d) src;
     start := 0; pos := 0; msg := []; err := None |}.

Definition Err (d : Decoder) : option error :=
  match err d with
  | Some e => if error_eqb e EOF then None else Some e
  | None => None
  end.

Definition Messages (d : Decoder) : list Msg := msg d.

(** The loop of exhaustReaders over the messages still to visit. *)
Fixpoint exhaustReaders_from (ms : list Msg) : M unit :=
  match ms with
  | [] => ret tt
  | m :: ms' =>
      match drain m with
      | None => exhaustReaders_from ms'
      | Some copy => fun d =>
          let '(src, e) := copy (r d) in
          match e with
          | Some e => Ret (tt, set_err (set_r d src) (Some e))
          | None => exhaustReaders_from ms' (set_r d src)
          end
      end
  end.

Definition exhaustReaders : M unit :=
  fun d => exhaustReaders_from (msg d) d.

Definition buflen (d : Decoder) : Z := int_sub (bufio.Buffered (br d)) (pos d).

Definition dotlen (d : Decoder) : Z := int_sub (pos d) (start d).

Definition dot : M slice :=
  fun d =>
    if bufio.Buffered (br d) <? pos d then Panic "decoder position out of bounds"
    else
      obind (bufio.Peek (br d) (pos d)) (fun '(b, buf, e) =>
      match e with
      | Some e => Panic (Error e)
      | None => obind (slice_from buf (start d)) (fun sl => Ret (sl, set_br d b))
      end).

Definition resetdot : M unit :=
  fun d => Ret (tt, set_pos (set_start d 0) 0).

Definition advance (n : Z) : M unit :=
  fun d =>
    if buflen d <? n then Panic "advance decoder out of bounds"
    else Ret (tt, set_pos d (int_add (pos d) n)).

Definition shrinkdot (n : Z) : M unit :=
  fun d =>
    if dotlen d <? n then Panic "shrink dot out of bounds"
    else Ret (tt, set_pos d (int_sub (pos d) n)).

Definition mark : M unit :=
  fun d => Ret (tt, set_start d (pos d)).

Definition fill (n : Z) : M (option error) :=
  fun d =>
    if int_sub maxInt n <? pos d then Ret (Some errFillOverflow, d)
    else obind (bufio.Peek (br d) (int_add (pos d) n))
               (fun '(b, _, e) => Ret (e, set_br d b)).

Definition growdot (n : Z) : M (option slice * option error) :=
  fun d =>
    (e <- fill (int_sub n (dotlen d)) ;;
     match e with
     | Some e => ret (None, Some e)
     | None =>
         (fun d => advance (int_sub n (dotlen d)) d) ;;
         sl <- dot ;;
         ret (Some sl, None)
     end) d.

Definition discard (b : bufio.Reader) (n : Z) : outcome (bufio.Reader * option error) :=
  obind (CopyN_Discard b n) (fun '(b', _, e) => Ret (b', e)).

(** The loop of dropMessages over the messages still to visit. *)
Fixpoint dropMessages_from (ms : list Msg) : M unit :=
  match ms with
  | [] => ret tt
  | m :: ms' => fun d =>
      obind (discard (br d) (nbytes m)) (fun '(b, e) =>
      match e with
      | Some e => Ret (tt, set_err (set_br d b) (Some e))
      | None => dropMessages_from ms' (set_br d b)
      end)
  end.

Definition dropMessages : M unit :=
  (fun d => dropMessages_from (msg d) d) ;;
  fun d => Ret (tt, set_msg d []).

Section Cycle.

(** The parsing stage, defined elsewhere in the package: it works on the
    decoder through the cursor operations and returns its error. *)
Variable fetchMessages : M (option error).

Definition Next : M bool :=
  exhaustReaders ;;
  dropMessages ;;
  resetdot ;;
  fun d =>
    match err d with
    | Some _ => Ret (false, d)
    | None =>
        (e <- fetchMessages ;;
         match e with
         | Some _ => ret false
         | None => ret true
         end) d
    end.

End Cycle.

(** ** Invariants and observations of a decoder *)

(** [0 <= start <= pos <= buffered length] *)
Definition cursor_ok (d : Decoder) : Prop :=
  0 <= start d <= pos d /\ pos d <= bufio.Buffered (br d).

Definition inv (d : Decoder) : Prop := bufio.wf (br d) /\ cursor_ok d.

(** The bytes the window buffer will still hand out: what is buffered,
    followed by what the device will deliver. Offset 0 is the front of the
    window. *)
Definition stream (d : Decoder) : list byte := bufio.pending (br d).

(** The bytes a batch takes up in the stream: the sum of its messages'
    [nbytes()]. *)
Definition batch_length (ms : list Msg) : Z :=
  fold_right (fun m acc => nbytes m + acc) 0 ms.

(** Draining the streaming bodies of a batch, as the spec words it: every
    message that can be read from is read to its end, in batch order, each
    from the device as the one before left it; the first failure ends the
    pass. The result is the device afterwards and that failure, if any. *)
Fixpoint drain_batch (ms : list Msg) (src : io.Reader) : io.Reader * option error :=
  match ms with
  | [] => (src, None)
  | m :: ms' =>
      match drain m with
      | None => drain_batch ms' src
      | Some copy =>
          match copy src with
          | (src', Some e) => (src', Some e)
          | (src', None) => drain_batch ms' src'
          end
      end
  end.

(** ** Sample inputs *)

(** The state a method leaves behind, when it returns. *)
Definition after {A} (c : M A) (d : Decoder) : Decoder :=
  match c d with
  | Ret (_, d') => d'
  | _ => d
  end.

(** Nine bytes, delivered in four reads (one of them empty), then EOF. *)
Definition sample_input : io.Reader :=
  {| io.chunks := [[x01; x02; x03]; [x04; x05]; []; [x06; x07; x08; x09]];
     io.final := EOF |}.

(** A fresh decoder with a 16-byte buffer over [sample_input]. *)
Definition sample_decoder : Decoder := NewDecoderSize 16 sample_input 16.

(** The sample decoder after three bytes were selected and committed:
    [start = pos = 3], three bytes buffered. *)
Definition sample_marked : Decoder :=
  after (growdot 3 ;; mark) sample_decoder.

(** The sample decoder with a two-byte dot over three buffered bytes:
    [start = 1], [pos = 3]. *)
Definition sample_window : Decoder :=
  after (growdot 1 ;; mark ;; growdot 2) sample_decoder.

(** The sample decoder with a one-byte dot and two more bytes buffered behind
    it: [start = 0], [pos = 1], three bytes buffered. *)
Definition sample_mid : Decoder :=
  after (growdot 3 ;; shrinkdot 2) sample_decoder.

(** Nine bytes, delivered in three reads, then EOF; and a decoder over them
    with three bytes selected and committed. *)
Definition steady_input : io.Reader :=
  {| io.chunks := [[x01; x02; x03]; [x04; x05]; [x06; x07; x08; x09]];
     io.final := EOF |}.

Definition steady_marked : Decoder :=
  after (growdot 3 ;; mark) (NewDecoderSize 16 steady_input 16).

(** A message held entirely in the buffer, at [sl]. *)
Definition plain_msg (sl : slice) : Msg :=
  {| nbytes := Z.of_nat (len sl); bytes := sl; drain := None |}.

(** A message of [n] bytes, its head at [sl], with a streamed body whose
    reader fails. *)
Definition failing_body (sl : slice) (n : Z) : Msg :=
  {| nbytes := n; bytes := sl;
     drain := Some (fun src => (src, Some (ErrDevice "connection reset"))) |}.

(** A decoder between two cycles: five bytes buffered, its last batch two
    plain messages of two and three bytes. *)
Definition sample_batch : Decoder :=
  set_msg (after (growdot 2 ;; mark ;; growdot 3 ;; mark) sample_decoder)
          [plain_msg {| off := 0; len := 2 |}; plain_msg {| off := 2; len := 3 |}].

(** A decoder between two cycles whose last batch is one two-byte message
    with a failing body. *)
Definition sample_stale : Decoder :=
  set_msg sample_window [failing_body {| off := 0; len := 2 |} 2].

(** The same, with a message longer than what is left of the input. *)
Definition sample_truncated : Decoder :=
  set_msg sample_window [failing_body {| off := 0; len := 3 |} 20].

(** A parsing stage that finds nothing and reports no error. *)
Definition fetch_nothing : M (option error) := ret None.

(** Modelled from the spec: a parsing stage in its plainest form, which takes
    the next [n] bytes as one message. It grows the dot to [n] bytes, makes
    the message from the span it gets, commits it with mark and stores the
    batch; an error of growdot is stored and returned. *)
Definition fetch_frame (n : Z) : M (option error) :=
  res <- growdot n ;;
  match res with
  | (Some sl, None) =>
      mark ;;
      fun d => Ret (None, set_msg d [{| nbytes := n; bytes := sl; drain := None |}])
  | (_, e) => fun d => Ret (e, set_err d e)
  end.

(** The bytes of the messages of the current batch, as a caller reads them
    through the slices it was given. *)
Definition read_messages (d : Decoder) (ms : list Msg) : list (list byte) :=
  map (fun m => bufio.view (br d) (bytes m)) ms.

(** * Properties *)

(** ** Machine integers *)

Lemma wrap_id (x : Z) : is_int x -> wrap x = x.
Proof.
  unfold is_int, wrap, minInt, maxInt. intros H.
  rewrite Z.mod_small; lia.
Qed.

Lemma wrap_is_int (x : Z) : is_int (wrap x).
Proof.
  unfold is_int, wrap, minInt, maxInt.
  pose proof (Z.mod_pos_bound (x + 2 ^ 63) (2 ^ 64)). lia.
Qed.

Lemma wrap_above (x : Z) : maxInt < x <= maxInt + 2 ^ 64 -> wrap x = x - 2 ^ 64.
Proof.
  unfold wrap, maxInt. intros H.
  replace (x + 2 ^ 63) with (x + 2 ^ 63 - 2 ^ 64 + 1 * 2 ^ 64) by lia.
  rewrite Z.mod_add by lia. rewrite Z.mod_small; lia.
Qed.

Lemma wrap_below (x : Z) : minInt - 2 ^ 64 <= x < minInt -> wrap x = x + 2 ^ 64.
Proof.
  unfold wrap, minInt. intros H.
  replace (x + 2 ^ 63) with (x + 2 ^ 63 + 2 ^ 64 + (-1) * 2 ^ 64) by lia.
  rewrite Z.mod_add by lia. rewrite Z.mod_small; lia.
Qed.

(** ** Lists as arrays *)

Lemma copy_at_nil (dst : list byte) (i : nat) : bufio.copy_at dst i [] = dst.
Proof.
  unfold bufio.copy_at. cbn [length app]. rewrite Nat.add_0_r.
  apply firstn_skipn.
Qed.

Lemma copy_at_length (dst data : list byte) (i : nat) :
  (i + length data <= length dst)%nat ->
  length (bufio.copy_at dst i data) = length dst.
Proof.
  intros H. unfold bufio.copy_at.
  rewrite !length_app, length_firstn, length_skipn. lia.
Qed.

Lemma window_skip_firstn (A : Type) (l : list A) (i j : nat) :
  firstn (j - i) (skipn i l) = skipn i (firstn j l).
Proof.
  revert i j. induction l as [|a l IH]; intros i j.
  - now rewrite !skipn_nil, !firstn_nil, skipn_nil.
  - destruct i, j; cbn; try reflexivity. apply IH.
Qed.

(** Writing [data] at [w] leaves [buf[r:w]] in place and appends to it. *)
Lemma window_copy_at (buf data : list byte) (i j : nat) :
  (i <= j)%nat -> (j + length data <= length buf)%nat ->
  firstn (j + length data - i) (skipn i (bufio.copy_at buf j data))
  = firstn (j - i) (skipn i buf) ++ data.
Proof.
  intros Hij Hj. unfold bufio.copy_at.
  rewrite skipn_app, length_firstn.
  replace (Nat.min j (length buf)) with j by lia.
  replace (i - j)%nat with 0%nat by lia. cbn [skipn].
  rewrite <- window_skip_firstn.
  assert (Hl : length (firstn (j - i) (skipn i buf)) = (j - i)%nat).
  { rewrite length_firstn, length_skipn. lia. }
  rewrite app_assoc, firstn_app.
  rewrite length_app, Hl.
  replace (j + length data - i - (j - i + length data))%nat with 0%nat by lia.
  cbn [firstn]. rewrite app_nil_r.
  rewrite firstn_all2; [reflexivity|]. rewrite length_app, Hl. lia.
Qed.

(** Sliding [buf[r:w]] to the front keeps it as [buf[0:w-r]]. *)
Lemma window_slide (buf : list byte) (i j : nat) :
  (i <= j <= length buf)%nat ->
  firstn (j - i) (bufio.copy_at buf 0 (firstn (j - i) (skipn i buf)))
  = firstn (j - i) (skipn i buf).
Proof.
  intros H. unfold bufio.copy_at. cbn [firstn app Nat.add].
  assert (Hl : length (firstn (j - i) (skipn i buf)) = (j - i)%nat).
  { rewrite length_firstn, length_skipn. lia. }
  rewrite firstn_app, Hl, Nat.sub_diag. cbn [firstn]. rewrite app_nil_r.
  rewrite firstn_all2; [reflexivity | lia].
Qed.

Lemma skipn_app_le (A : Type) (k : nat) (l1 l2 : list A) :
  (k <= length l1)%nat -> skipn k (l1 ++ l2) = skipn k l1 ++ l2.
Proof.
  intros H. rewrite skipn_app. replace (k - length l1)%nat with 0%nat by lia.
  reflexivity.
Qed.

(** ** package io *)

Lemma io_Read_spec (s : io.Reader) (cap : nat) :
  forall s' data e, io.Read s cap = (s', data, e) ->
  data ++ io.remaining s' = io.remaining s /\
  (length data <= cap)%nat /\
  (length (io.chunks s') <= length (io.chunks s))%nat /\
  (e <> None -> data = [] /\ s' = s) /\
  (e = None -> data = [] -> (0 < cap)%nat ->
   (length (io.chunks s') < length (io.chunks s))%nat).
Proof.
  intros s' data e. unfold io.Read, io.remaining.
  destruct s as [cs fin]. cbn [io.chunks io.final].
  destruct cs as [|c rest]; intros H; inversion H; subst; clear H.
  - cbn. repeat split; auto; try lia. congruence.
  - cbn [io.chunks io.final].
    assert (Hrem : concat (match skipn cap c with [] => rest | _ :: _ => skipn cap c :: rest end)
                   = skipn cap c ++ concat rest).
    { destruct (skipn cap c); reflexivity. }
    rewrite Hrem. cbn [concat]. rewrite app_assoc, firstn_skipn.
    split; [reflexivity|]. split; [apply firstn_le_length|].
    split; [destruct (skipn cap c); cbn; lia|].
    split; [congruence|].
    intros _ Hnil Hcap.
    destruct c as [|x c]; [cbn; destruct cap; cbn; lia|].
    destruct cap; [lia | discriminate].
Qed.

(** ** package bufio: buffering *)

Lemma buffered_length (b : bufio.Reader) :
  bufio.wf b -> length (bufio.buffered b) = (bufio.w b - bufio.r b)%nat.
Proof.
  intros [H _]. unfold bufio.buffered.
  rewrite length_firstn, length_skipn. lia.
Qed.

Lemma Buffered_length (b : bufio.Reader) :
  bufio.wf b -> bufio.Buffered b = Z.of_nat (length (bufio.buffered b)).
Proof. intros H. unfold bufio.Buffered. now rewrite buffered_length. Qed.

Lemma Buffered_bounds (b : bufio.Reader) :
  bufio.wf b -> 0 <= bufio.Buffered b <= maxInt.
Proof. intros [W M]. unfold bufio.Buffered. lia. Qed.

Lemma grows_refl (b : bufio.Reader) : bufio.wf b -> bufio.grows b b.
Proof.
  intros H. repeat split; try apply H. exists []. now rewrite app_nil_r.
Qed.

Lemma grows_trans (a b c : bufio.Reader) :
  bufio.grows a b -> bufio.grows b c -> bufio.grows a c.
Proof.
  intros (L1 & W1 & P1 & x1 & E1) (L2 & W2 & P2 & x2 & E2).
  repeat split; try apply W2; try congruence.
  exists (x1 ++ x2). rewrite E2, E1. now rewrite app_assoc.
Qed.

Lemma grows_Buffered (b b' : bufio.Reader) :
  bufio.wf b -> bufio.grows b b' -> bufio.Buffered b <= bufio.Buffered b'.
Proof.
  intros W (_ & W' & _ & x & E).
  rewrite !Buffered_length by assumption. rewrite E, length_app. lia.
Qed.

(** One round of reads either buffers more bytes or records an error. *)
Lemma fill_reads_spec (i : nat) :
  forall b, bufio.wf b -> (bufio.w b < length (bufio.buf b))%nat ->
  bufio.grows b (bufio.fill_reads i b) /\
  bufio.r (bufio.fill_reads i b) = bufio.r b /\
  (bufio.err (bufio.fill_reads i b) <> None \/
   (bufio.w b < bufio.w (bufio.fill_reads i b))%nat).
Proof.
  induction i as [|i IH]; intros b W Hfull.
  - cbn. split; [|split; [reflexivity | left; discriminate]].
    destruct (grows_refl W) as (L & W' & P & X). repeat split; auto; apply W.
  - cbn [bufio.fill_reads].
    destruct (io.Read (bufio.rd b) (length (bufio.buf b) - bufio.w b))
      as [[src data] e] eqn:HR.
    destruct (io_Read_spec _ _ HR) as (Hrem & Hlen & _ & Herr & _).
    destruct W as [Wi Wm].
    assert (Hfit : (bufio.w b + length data <= length (bufio.buf b))%nat) by lia.
    assert (G : forall e', bufio.grows b
              {| bufio.buf := bufio.copy_at (bufio.buf b) (bufio.w b) data;
                 bufio.rd := src; bufio.r := bufio.r b;
                 bufio.w := bufio.w b + length data; bufio.err := e' |}).
    { intros e'. unfold bufio.grows, bufio.wf, bufio.pending, bufio.buffered.
      cbn [bufio.buf bufio.rd bufio.r bufio.w].
      rewrite copy_at_length by lia.
      rewrite window_copy_at by lia.
      repeat split; try lia.
      - rewrite <- app_assoc. now rewrite Hrem.
      - now exists data. }
    destruct e as [e|].
    + cbn [bufio.buf bufio.rd bufio.r bufio.w bufio.err].
      split; [apply G | split; [reflexivity | left; discriminate]].
    + destruct (0 <? length data)%nat eqn:Hd.
      * apply Nat.ltb_lt in Hd.
        split; [apply G | split; [reflexivity | right; cbn; lia]].
      * apply Nat.ltb_ge in Hd.
        assert (Hdata : data = []) by (destruct data; [reflexivity | cbn in Hd; lia]).
        subst data. cbn [length] in *.
        set (b1 := {| bufio.buf := bufio.copy_at (bufio.buf b) (bufio.w b) [];
                      bufio.rd := src; bufio.r := bufio.r b;
                      bufio.w := bufio.w b + 0; bufio.err := bufio.err b |}).
        assert (G1 : bufio.grows b b1) by apply G.
        assert (W1 : bufio.wf b1) by apply G1.
        assert (F1 : (bufio.w b1 < length (bufio.buf b1))%nat).
        { unfold b1; cbn. rewrite copy_at_nil. lia. }
        destruct (IH b1 W1 F1) as (G2 & R2 & P2).
        split; [eapply grows_trans; eassumption|].
        split; [rewrite R2; reflexivity|].
        destruct P2 as [P2|P2]; [left; exact P2 | right].
        unfold b1 in P2 at 1. cbn in P2. lia.
Qed.

Lemma fill_spec (b : bufio.Reader) :
  bufio.wf b -> bufio.Buffered b < Z.of_nat (length (bufio.buf b)) ->
  exists b', bufio.fill b = Ret b' /\ bufio.grows b b' /\
             (bufio.err b' <> None \/ bufio.Buffered b < bufio.Buffered b').
Proof.
  intros W Hroom. pose proof W as [Wi Wm]. unfold bufio.Buffered in Hroom.
  unfold bufio.fill.
  set (b1 := if (0 <? bufio.r b)%nat
             then {| bufio.buf := bufio.copy_at (bufio.buf b) 0 (bufio.buffered b);
                     bufio.rd := bufio.rd b; bufio.r := 0;
                     bufio.w := bufio.w b - bufio.r b; bufio.err := bufio.err b |}
             else b).
  assert (G1 : bufio.grows b b1 /\ bufio.Buffered b1 = bufio.Buffered b
               /\ (bufio.w b1 < length (bufio.buf b1))%nat).
  { unfold b1. destruct (0 <? bufio.r b)%nat eqn:Hr.
    - assert (Hb : length (bufio.buffered b) = (bufio.w b - bufio.r b)%nat)
        by now apply buffered_length.
      unfold bufio.buffered in Hb.
      unfold bufio.grows, bufio.wf, bufio.pending, bufio.Buffered, bufio.buffered.
      cbn [bufio.buf bufio.rd bufio.r bufio.w].
      rewrite copy_at_length by (cbn; lia).
      rewrite Nat.sub_0_r. cbn [skipn].
      rewrite window_slide by lia.
      repeat split; try lia. exists []. now rewrite app_nil_r.
    - apply Nat.ltb_ge in Hr. split; [now apply grows_refl|].
      split; [reflexivity | lia]. }
  destruct G1 as (G1 & HB1 & Hfull).
  destruct (length (bufio.buf b1) <=? bufio.w b1)%nat eqn:Hp.
  { apply Nat.leb_le in Hp. lia. }
  assert (W1 : bufio.wf b1) by apply G1.
  destruct (fill_reads_spec bufio.maxConsecutiveEmptyReads W1 Hfull) as (G2 & R2 & P2).
  eexists. split; [reflexivity|]. split; [eapply grows_trans; eassumption|].
  destruct P2 as [P2|P2]; [left; exact P2 | right].
  rewrite <- HB1. unfold bufio.Buffered. rewrite R2.
  destruct W1 as [W1 _]. lia.
Qed.

(** The loop of Peek ends within the bound, by leaving its condition. *)
Lemma Peek_loop_spec (n : Z) (fuel : nat) :
  forall b, bufio.wf b ->
  (length (bufio.buf b) - length (bufio.buffered b) <= fuel)%nat \/ bufio.err b <> None ->
  exists b', bufio.Peek_loop fuel b n = Ret b' /\ bufio.grows b b' /\
    (n <= bufio.Buffered b' \/
     Z.of_nat (length (bufio.buf b')) <= bufio.Buffered b' \/
     bufio.err b' <> None) /\
    (n <= bufio.Buffered b -> b' = b).
Proof.
  induction fuel as [|fuel IH]; intros b W Hm.
  - cbn [bufio.Peek_loop].
    destruct (bufio.Buffered b <? n) eqn:H1; cbn [andb].
    2:{ apply Z.ltb_ge in H1. exists b. split; [reflexivity|].
        split; [now apply grows_refl|]. split; [left; lia | reflexivity]. }
    destruct (bufio.Buffered b <? Z.of_nat (length (bufio.buf b))) eqn:H2; cbn [andb].
    2:{ apply Z.ltb_ge in H2. exists b. split; [reflexivity|].
        split; [now apply grows_refl|]. split; [right; left; lia | reflexivity]. }
    destruct (bufio.err b) eqn:H3.
    { exists b. split; [reflexivity|].
      split; [now apply grows_refl|]. split; [right; right; congruence | reflexivity]. }
    apply Z.ltb_lt in H2. rewrite Buffered_length in H2 by assumption.
    destruct Hm as [Hm|Hm]; [lia | congruence].
  - cbn [bufio.Peek_loop].
    destruct (bufio.Buffered b <? n) eqn:H1; cbn [andb].
    2:{ apply Z.ltb_ge in H1. exists b. split; [reflexivity|].
        split; [now apply grows_refl|]. split; [left; lia | reflexivity]. }
    destruct (bufio.Buffered b <? Z.of_nat (length (bufio.buf b))) eqn:H2; cbn [andb].
    2:{ apply Z.ltb_ge in H2. exists b. split; [reflexivity|].
        split; [now apply grows_refl|]. split; [right; left; lia | reflexivity]. }
    destruct (bufio.err b) eqn:H3.
    { exists b. split; [reflexivity|].
      split; [now apply grows_refl|]. split; [right; right; congruence | reflexivity]. }
    apply Z.ltb_lt in H1, H2.
    destruct (fill_spec W H2) as (b1 & F & G1 & P1).
    rewrite F. cbn [obind].
    assert (W1 : bufio.wf b1) by apply G1.
    assert (Hm1 : (length (bufio.buf b1) - length (bufio.buffered b1) <= fuel)%nat
                  \/ bufio.err b1 <> None).
    { destruct P1 as [P1|P1]; [right; exact P1 | left].
      destruct Hm as [Hm|Hm]; [|congruence].
      destruct G1 as (L1 & _ & _ & _).
      rewrite !Buffered_length in P1 by assumption.
      rewrite Buffered_length in H2 by assumption. lia. }
    destruct (IH b1 W1 Hm1) as (b' & E & G2 & X & _).
    exists b'. split; [exact E|]. split; [eapply grows_trans; eassumption|].
    split; [exact X | lia].
Qed.

(** What Peek returns on a well-formed reader. *)
Lemma Peek_spec (b : bufio.Reader) (n : Z) :
  bufio.wf b -> 0 <= n ->
  exists b' sl e, bufio.Peek b n = Ret (b', sl, e) /\ bufio.grows b b' /\
    (e = None -> n <= bufio.Buffered b' /\
                 sl = {| off := bufio.r b'; len := Z.to_nat n |}) /\
    (n <= bufio.Buffered b -> b' = b /\ e = None).
Proof.
  intros W Hn. unfold bufio.Peek.
  destruct (n <? 0) eqn:Hneg; [apply Z.ltb_lt in Hneg; lia|].
  destruct (@Peek_loop_spec n (S (length (bufio.buf b))) b W) as (b1 & E & G & X & Same);
    [left; lia|].
  rewrite E. cbn [obind].
  assert (W1 : bufio.wf b1) by apply G.
  destruct (Z.of_nat (length (bufio.buf b1)) <? n) eqn:Hbig.
  { apply Z.ltb_lt in Hbig. do 3 eexists. split; [reflexivity|].
    split; [exact G|]. split; [discriminate|].
    intros Hb. pose proof (grows_Buffered W G) as Hle.
    destruct W1 as [W1 _]. unfold bufio.Buffered in Hle at 2. lia. }
  destruct (bufio.Buffered b1 <? n) eqn:Hshort.
  { apply Z.ltb_lt in Hshort. cbn [bufio.readErr].
    do 3 eexists. split; [reflexivity|]. split.
    - destruct G as (L & Wf & P & x & Ex). repeat split; try apply Wf; auto.
      exists x. exact Ex.
    - split; [discriminate|]. intros Hb. pose proof (grows_Buffered W G). lia. }
  apply Z.ltb_ge in Hshort.
  do 3 eexists. split; [reflexivity|]. split; [exact G|].
  split; [intros _; split; [lia | reflexivity]|].
  intros Hb. split; [now apply Same | reflexivity].
Qed.

Lemma view_pending (b : bufio.Reader) (i n : nat) :
  bufio.wf b -> (i + n <= bufio.w b - bufio.r b)%nat ->
  bufio.view b {| off := bufio.r b + i; len := n |}
  = firstn n (skipn i (bufio.pending b)).
Proof.
  intros [W _] H. unfold bufio.view, bufio.pending, bufio.buffered. cbn [off len].
  rewrite skipn_app, length_firstn, length_skipn.
  replace (i - Nat.min (bufio.w b - bufio.r b) (length (bufio.buf b) - bufio.r b))%nat
    with 0%nat by lia.
  cbn [skipn]. rewrite <- window_skip_firstn.
  rewrite firstn_app, length_firstn, !length_skipn.
  replace (n - Nat.min (bufio.w b - bufio.r b - i)
                 (length (bufio.buf b) - bufio.r b - i))%nat with 0%nat by lia.
  cbn [firstn]. rewrite app_nil_r, firstn_firstn.
  replace (Nat.min n (bufio.w b - bufio.r b - i)) with n by lia.
  now rewrite skipn_skipn, Nat.add_comm.
Qed.

(** ** package bufio: reading and discarding *)

Lemma buffered_advance (b : bufio.Reader) (k : nat) (e : option error) :
  bufio.wf b -> (k <= bufio.w b - bufio.r b)%nat ->
  bufio.buffered {| bufio.buf := bufio.buf b; bufio.rd := bufio.rd b;
                    bufio.r := bufio.r b + k; bufio.w := bufio.w b;
                    bufio.err := e |}
  = skipn k (bufio.buffered b).
Proof.
  intros [W _] H. unfold bufio.buffered. cbn [bufio.buf bufio.r bufio.w].
  rewrite <- window_skip_firstn, skipn_skipn.
  f_equal; [lia | f_equal; lia].
Qed.

(** One Read of the buffered reader, with room for at least one byte. *)
Lemma bufio_Read_spec (b : bufio.Reader) (cap : nat) :
  bufio.wf b -> (0 < cap)%nat ->
  forall b' k e, bufio.Read b cap = (b', k, e) ->
  bufio.wf b' /\ length (bufio.buf b') = length (bufio.buf b) /\
  bufio.pending b' = skipn k (bufio.pending b) /\
  (k <= length (bufio.pending b))%nat /\ (k <= cap)%nat /\
  (length (io.chunks (bufio.rd b')) <= length (io.chunks (bufio.rd b)))%nat /\
  (bufio.buffered b <> [] ->
   e = None /\ (0 < k)%nat /\ bufio.buffered b' = skipn k (bufio.buffered b) /\
   (k <= length (bufio.buffered b))%nat /\ bufio.err b' = bufio.err b) /\
  match e with
  | None => ((0 < k)%nat \/
             (length (io.chunks (bufio.rd b')) < length (io.chunks (bufio.rd b)))%nat) /\
            (bufio.err b = None -> bufio.err b' = None)
  | Some _ => k = 0%nat /\ (bufio.err b = None -> bufio.pending b = [])
  end.
Proof.
  intros W Hcap b' k e. pose proof W as [Wi Wm].
  pose proof (buffered_length W) as BL.
  unfold bufio.Read.
  destruct (cap =? 0)%nat eqn:E0; [apply Nat.eqb_eq in E0; lia|]. clear E0.
  destruct (bufio.r b =? bufio.w b)%nat eqn:Erw.
  - (* the buffer is empty *)
    apply Nat.eqb_eq in Erw.
    assert (Hemp : bufio.buffered b = []).
    { apply length_zero_iff_nil. rewrite BL. lia. }
    assert (Hpend : bufio.pending b = io.remaining (bufio.rd b)).
    { unfold bufio.pending. now rewrite Hemp. }
    destruct (bufio.err b) as [e0|] eqn:Eerr.
    + (* a stored error is handed out *)
      cbn [bufio.readErr]. intros H; inversion H; subst; clear H.
      unfold bufio.wf, bufio.pending, bufio.buffered in *.
      cbn [bufio.buf bufio.rd bufio.r bufio.w bufio.err skipn].
      rewrite ?Eerr.
      repeat split; try lia; try congruence; try discriminate.
    + destruct (length (bufio.buf b) <=? cap)%nat eqn:Ebig.
      * (* large read, past the buffer *)
        destruct (io.Read (bufio.rd b) cap) as [[src data] e1] eqn:HR.
        destruct (io_Read_spec _ _ HR) as (Hrem & Hlen & Hch & Herr & Hprog).
        intros H; inversion H; subst; clear H.
        assert (Hemp' : forall x, bufio.buffered
                   {| bufio.buf := bufio.buf b; bufio.rd := src; bufio.r := bufio.r b;
                      bufio.w := bufio.w b; bufio.err := x |} = []).
        { intros x. unfold bufio.buffered in *. exact Hemp. }
        unfold bufio.wf, bufio.pending. rewrite Hemp', Hemp.
        cbn [bufio.buf bufio.rd bufio.r bufio.w bufio.err app].
        rewrite <- Hrem, length_app.
        split; [lia|]. split; [reflexivity|].
        split; [now rewrite skipn_app_le, skipn_all by lia|].
        split; [lia|]. split; [lia|]. split; [exact Hch|].
        split; [congruence|].
        destruct e; [|split; [|reflexivity]].
        -- destruct (Herr ltac:(discriminate)) as [-> ->].
           split; [reflexivity|]. intros _. cbn [app].
           unfold io.Read in HR.
           destruct (io.chunks (bufio.rd b)) eqn:Ech; [|discriminate].
           unfold io.remaining. now rewrite Ech.
        -- destruct data as [|x data]; [right | left; cbn; lia].
           now apply Hprog.
      * (* one read into the buffer *)
        apply Nat.leb_gt in Ebig.
        destruct (io.Read (bufio.rd b) (length (bufio.buf b))) as [[src data] e1] eqn:HR.
        destruct (io_Read_spec _ _ HR) as (Hrem & Hlen & Hch & Herr & Hprog).
        destruct data as [|x data].
        -- intros H; inversion H; subst; clear H.
           unfold bufio.wf, bufio.pending, bufio.buffered.
           cbn [bufio.buf bufio.rd bufio.r bufio.w bufio.err app skipn firstn Nat.sub].
           cbn [app] in Hrem.
           split; [lia|]. split; [reflexivity|].
           split; [unfold bufio.buffered in Hemp; rewrite Hemp; exact Hrem|].
           split; [lia|]. split; [lia|]. split; [exact Hch|].
           split; [unfold bufio.buffered in Hemp; congruence|].
           destruct e; [|split; [|reflexivity]].
           ++ split; [reflexivity|]. intros _.
              destruct (Herr ltac:(discriminate)) as [_ ->].
              unfold io.Read in HR.
              destruct (io.chunks (bufio.rd b)) eqn:Ech; [|discriminate].
              unfold bufio.buffered in Hemp. rewrite Hemp.
              unfold io.remaining. now rewrite Ech.
           ++ right. apply Hprog; [reflexivity | reflexivity | lia].
        -- assert (He1 : e1 = None).
           { destruct e1; [|reflexivity].
             destruct (Herr ltac:(discriminate)); discriminate. }
           subst e1. cbn [bufio.buf bufio.rd bufio.r bufio.w bufio.err].
           set (data' := x :: data) in *.
           assert (Hd : (0 < length data')%nat) by (cbn; lia).
           set (k1 := Nat.min cap (length data' - 0)).
           intros [= <- <- <-].
           assert (Hk : (k1 <= length data')%nat) by lia.
           assert (Hbuf : firstn (length data' - k1)
                            (skipn k1 (bufio.copy_at (bufio.buf b) 0 data'))
                          = skipn k1 data').
           { unfold bufio.copy_at. cbn [firstn app Nat.add].
             rewrite skipn_app_le by lia.
             rewrite firstn_app, length_skipn.
             replace (length data' - k1 - (length data' - k1))%nat with 0%nat by lia.
             cbn [firstn]. rewrite app_nil_r.
             apply firstn_all2. rewrite length_skipn. lia. }
           unfold bufio.wf, bufio.pending, bufio.buffered.
           cbn [bufio.buf bufio.rd bufio.r bufio.w bufio.err].
           rewrite copy_at_length by (cbn [Nat.add]; lia).
           change (S (length data)) with (length data').
           rewrite Hbuf. unfold bufio.buffered in Hemp. rewrite Hemp.
           cbn [app]. rewrite <- Hrem, length_app.
           split; [lia|]. split; [reflexivity|].
           split; [now rewrite skipn_app_le by lia|].
           split; [lia|]. split; [lia|]. split; [exact Hch|].
           split; [congruence|].
           split; [left; lia | reflexivity].
  - (* bytes are buffered *)
    apply Nat.eqb_neq in Erw.
    set (k0 := Nat.min cap (bufio.w b - bufio.r b)).
    intros H; inversion H; subst; clear H.
    assert (Hk : (0 < k0 <= bufio.w b - bufio.r b)%nat) by lia.
    pose proof (@buffered_advance b k0 (bufio.err b) W ltac:(lia)) as BA.
    unfold bufio.wf, bufio.pending. rewrite BA.
    cbn [bufio.buf bufio.rd bufio.r bufio.w bufio.err].
    rewrite length_app, BL.
    split; [lia|]. split; [reflexivity|].
    split; [now rewrite skipn_app_le by lia|].
    split; [lia|]. split; [lia|]. split; [lia|].
    split; [intros _; repeat split; lia|].
    split; [left; lia | auto].
Qed.

(** The copy loop behind discard ends within its bound; it takes bytes off
    the front of the stream, never more than the limit, and all of the limit
    when the reader supplies that many. *)
Lemma Copy_Discard_Limit_spec (fuel : nat) :
  forall b N written, bufio.wf b ->
  (N <= 0 \/ (Z.to_nat N + length (io.chunks (bufio.rd b)) < fuel)%nat) ->
  exists b' k e,
    Copy_Discard_Limit fuel b N written = Ret (b', written + Z.of_nat k, e) /\
    bufio.wf b' /\ length (bufio.buf b') = length (bufio.buf b) /\
    Z.of_nat k <= Z.max 0 N /\
    bufio.pending b' = skipn k (bufio.pending b) /\
    (k <= length (bufio.pending b))%nat /\
    (N <= 0 -> b' = b /\ k = 0%nat /\ e = None) /\
    (forall L, 0 <= N <= L -> bufio.supplies b L ->
               e = None /\ Z.of_nat k = N /\ bufio.supplies b' (L - N)).
Proof.
  induction fuel as [|fuel IH]; intros b N written W Hf.
  - destruct Hf as [Hf|Hf]; [|lia]. cbn [Copy_Discard_Limit].
    destruct (N <=? 0) eqn:E; [|apply Z.leb_gt in E; lia].
    exists b, 0%nat, None. rewrite Z.add_0_r. split; [reflexivity|].
    split; [exact W|]. split; [reflexivity|]. split; [lia|].
    split; [reflexivity|]. split; [lia|]. split; [auto|].
    intros L HL S. replace (L - N) with L by lia. repeat split; [lia | exact S].
  - cbn [Copy_Discard_Limit].
    destruct (N <=? 0) eqn:E.
    { apply Z.leb_le in E. exists b, 0%nat, None. rewrite Z.add_0_r.
      split; [reflexivity|]. split; [exact W|]. split; [reflexivity|].
      split; [lia|]. split; [reflexivity|]. split; [lia|]. split; [auto|].
      intros L HL S. replace (L - N) with L by lia. repeat split; [lia | exact S]. }
    apply Z.leb_gt in E. destruct Hf as [Hf|Hf]; [lia|].
    set (cap := Z.to_nat (Z.min 8192 N)).
    assert (Hcap : (0 < cap)%nat) by (unfold cap; lia).
    destruct (bufio.Read b cap) as [[b1 k1] e1] eqn:HR.
    destruct (bufio_Read_spec W Hcap HR)
      as (W1 & L1 & P1 & K1 & C1 & Ch1 & Hbuf & He).
    assert (Hk1N : Z.of_nat k1 <= N) by (unfold cap in C1; lia).
    destruct e1 as [e1|].
    + destruct He as [-> Hstored].
      exists b1, 0%nat. eexists. split; [reflexivity|].
      split; [exact W1|]. split; [exact L1|]. split; [lia|].
      split; [exact P1|]. split; [lia|]. split; [intros; lia|].
      intros L HL [S|[S1 S2]].
      * assert (Hne : bufio.buffered b <> []).
        { intros Hnil. rewrite Hnil in S. cbn in S. lia. }
        destruct (Hbuf Hne) as [Habs _]. discriminate.
      * rewrite (Hstored S1) in S2. cbn in S2. lia.
    + destruct He as [Hprog Herr].
      destruct (IH b1 (N - Z.of_nat k1) (written + Z.of_nat k1) W1)
        as (b' & k & e & HL & W' & L' & Kb & P' & K' & _ & Hsup).
      { destruct (Z_le_gt_dec (N - Z.of_nat k1) 0); [left; lia | right; lia]. }
      exists b', (k1 + k)%nat, e.
      split; [rewrite HL; f_equal; f_equal; f_equal; lia|].
      split; [exact W'|]. split; [congruence|]. split; [lia|].
      split; [now rewrite P', P1, skipn_skipn, Nat.add_comm|].
      split; [rewrite P1, length_skipn in K'; lia|].
      split; [intros; lia|].
      intros L HLN S.
      assert (S1 : bufio.supplies b1 (L - Z.of_nat k1)).
      { destruct (list_eq_dec Byte.byte_eq_dec (bufio.buffered b) []) as [Hnil|Hne].
        - destruct S as [S|[S1 S2]]; [rewrite Hnil in S; cbn in S; lia|].
          right. split; [now apply Herr|]. rewrite P1, length_skipn. lia.
        - destruct (Hbuf Hne) as (_ & _ & B1 & Kb1 & E1).
          destruct S as [S|[S1 S2]].
          + left. rewrite B1, length_skipn. lia.
          + right. split; [congruence|]. rewrite P1, length_skipn. lia. }
      destruct (Hsup (L - Z.of_nat k1) ltac:(lia) S1) as (-> & Hk & S').
      split; [reflexivity|]. split; [lia|].
      replace (L - N) with (L - Z.of_nat k1 - (N - Z.of_nat k1)) by lia. exact S'.
Qed.

Lemma discard_spec (b : bufio.Reader) (n : Z) :
  bufio.wf b ->
  exists b' e,
    discard b n = Ret (b', e) /\ bufio.wf b' /\
    length (bufio.buf b') = length (bufio.buf b) /\
    (n <= 0 -> b' = b /\ e = None) /\
    (0 <= n -> e = None ->
     bufio.pending b' = skipn (Z.to_nat n) (bufio.pending b) /\
     n <= Z.of_nat (length (bufio.pending b))) /\
    (forall L, 0 <= n <= L -> bufio.supplies b L ->
               e = None /\ bufio.supplies b' (L - n)).
Proof.
  intros W. unfold discard, CopyN_Discard.
  destruct (@Copy_Discard_Limit_spec
              (S (Z.to_nat n + length (io.chunks (bufio.rd b)))) b n 0 W)
    as (b' & k & e & HL & W' & L' & Kb & P' & K' & Hneg & Hsup); [right; lia|].
  rewrite HL. cbn [obind]. rewrite Z.add_0_l.
  destruct (Z.of_nat k =? n) eqn:E.
  - apply Z.eqb_eq in E. cbn [obind]. exists b', None.
    split; [reflexivity|]. split; [exact W'|]. split; [exact L'|].
    split; [intros Hn; destruct (Hneg Hn) as (-> & _ & _); auto|].
    split; [intros _ _; rewrite P'; split; [f_equal|]; lia|].
    intros L HLn S. destruct (Hsup L HLn S) as (_ & _ & S'). auto.
  - apply Z.eqb_neq in E. destruct e as [e|]; cbn [obind].
    + exists b', (Some e). split; [reflexivity|]. split; [exact W'|].
      split; [exact L'|].
      split; [intros Hn; destruct (Hneg Hn) as (_ & _ & Habs); discriminate|].
      split; [discriminate|].
      intros L HLn S. destruct (Hsup L HLn S) as (Habs & _ & _). discriminate.
    + destruct (Z.of_nat k <? n) eqn:E2; cbn [obind].
      * apply Z.ltb_lt in E2. exists b', (Some EOF). split; [reflexivity|].
        split; [exact W'|]. split; [exact L'|].
        split; [intros Hn; lia|]. split; [discriminate|].
        intros L HLn S. destruct (Hsup L HLn S) as (_ & Habs & _). lia.
      * apply Z.ltb_ge in E2. exists b', None. split; [reflexivity|].
        split; [exact W'|]. split; [exact L'|].
        split; [intros Hn; destruct (Hneg Hn) as (-> & _ & _); auto|].
        split; [intros; lia|].
        intros L HLn S. destruct (Hsup L HLn S) as (_ & Habs & _). lia.
Qed.

(** ** The cursor *)

Lemma buflen_inv (d : Decoder) :
  bufio.wf (br d) -> 0 <= pos d <= maxInt ->
  buflen d = bufio.Buffered (br d) - pos d.
Proof.
  intros W P. pose proof (Buffered_bounds W).
  unfold buflen, int_sub. apply wrap_id. unfold is_int, minInt, maxInt in *. lia.
Qed.

Lemma inv_pos_int (d : Decoder) : inv d -> 0 <= start d <= pos d /\ pos d <= maxInt.
Proof.
  intros [W [C1 C2]]. pose proof (Buffered_bounds W). lia.
Qed.

Lemma dotlen_inv (d : Decoder) : inv d -> dotlen d = pos d - start d.
Proof.
  intros I. pose proof (inv_pos_int I).
  unfold dotlen, int_sub. apply wrap_id. unfold is_int, minInt, maxInt in *. lia.
Qed.

(** fill on a well-formed reader: the overflow check, then Peek. *)
Lemma fill_cases (d : Decoder) (n : Z) :
  bufio.wf (br d) -> 0 <= pos d <= maxInt -> is_int n ->
  (n < 0 \/ maxInt < pos d + n) /\ fill n d = Ret (Some errFillOverflow, d)
  \/
  0 <= n /\ pos d + n <= maxInt /\
  exists b' sl e, bufio.Peek (br d) (pos d + n) = Ret (b', sl, e) /\
                  fill n d = Ret (e, set_br d b') /\
                  bufio.grows (br d) b' /\
                  (e = None -> pos d + n <= bufio.Buffered b').
Proof.
  intros W P N. unfold fill, int_sub, int_add.
  unfold is_int, minInt, maxInt in *.
  destruct (Z_lt_le_dec n 0) as [Hn|Hn].
  - left. split; [left; exact Hn|].
    rewrite wrap_above by (unfold maxInt; lia).
    destruct (2 ^ 63 - 1 - n - 2 ^ 64 <? pos d) eqn:E; [reflexivity|].
    apply Z.ltb_ge in E. lia.
  - rewrite (@wrap_id (2 ^ 63 - 1 - n)) by (unfold is_int, minInt, maxInt; lia).
    destruct (2 ^ 63 - 1 - n <? pos d) eqn:E.
    + apply Z.ltb_lt in E. left. split; [right; lia | reflexivity].
    + apply Z.ltb_ge in E. right. split; [exact Hn|]. split; [lia|].
      rewrite wrap_id by (unfold is_int, minInt, maxInt; lia).
      destruct (@Peek_spec (br d) (pos d + n) W) as (b' & sl & e & HP & G & He & _);
        [lia|].
      exists b', sl, e. rewrite HP. cbn [obind].
      split; [reflexivity|]. split; [reflexivity|]. split; [exact G|].
      intros H. now apply He.
Qed.

Lemma set_br_same (d : Decoder) : set_br d (br d) = d.
Proof. now destruct d. Qed.

(** dot on a decoder whose cursor is in bounds: the window [start, pos) of
    the buffered bytes, and no change of state. *)
Lemma dot_inv (d : Decoder) :
  inv d ->
  dot d = Ret ({| off := bufio.r (br d) + Z.to_nat (start d);
                  len := Z.to_nat (pos d) - Z.to_nat (start d) |}, d).
Proof.
  intros [W [[S0 SP] PB]]. unfold dot.
  destruct (bufio.Buffered (br d) <? pos d) eqn:E; [apply Z.ltb_lt in E; lia|].
  destruct (@Peek_spec (br d) (pos d) W) as (b' & sl & e & HP & _ & He & Same); [lia|].
  destruct (Same PB) as [-> ->]. destruct (He eq_refl) as [_ ->].
  rewrite HP. cbn [obind]. unfold slice_from. cbn [off len].
  destruct (start d <? 0) eqn:E1; [apply Z.ltb_lt in E1; lia|].
  destruct (Z.of_nat (Z.to_nat (pos d)) <? start d) eqn:E2; [apply Z.ltb_lt in E2; lia|].
  cbn [orb obind]. now rewrite set_br_same.
Qed.

Lemma dot_out_of_bounds (d : Decoder) :
  bufio.Buffered (br d) < pos d -> dot d = Panic "decoder position out of bounds".
Proof.
  intros H. unfold dot. apply Z.ltb_lt in H. now rewrite H.
Qed.

(** growdot from a decoder whose cursor is in bounds: it returns, for every
    n, and on success the dot is the n bytes from start. *)
Lemma growdot_spec (d : Decoder) (n : Z) :
  inv d -> is_int n ->
  exists res d',
    growdot n d = Ret (res, d') /\ inv d' /\ start d' = start d /\
    bufio.grows (br d) (br d') /\
    match res with
    | (Some sl, None) =>
        0 <= n /\ pos d' = start d + n /\ pos d <= pos d' /\
        sl = {| off := bufio.r (br d') + Z.to_nat (start d); len := Z.to_nat n |} /\
        dot d' = Ret (sl, d')
    | (None, Some e) => pos d' = pos d
    | _ => False
    end.
Proof.
  intros I N. pose proof I as [W [[S0 SP] PB]].
  pose proof (inv_pos_int I) as PI. pose proof (dotlen_inv I) as DL.
  unfold growdot, bind.
  assert (K : is_int (int_sub n (dotlen d))) by apply wrap_is_int.
  destruct (@fill_cases d (int_sub n (dotlen d)) W ltac:(lia) K)
    as [[Hc E] | (Hk & Hs & b' & sl & e & HP & E & G & He)].
  - rewrite E. cbn [obind ret]. exists (None, Some errFillOverflow), d.
    split; [reflexivity|]. split; [exact I|]. split; [reflexivity|].
    split; [now apply grows_refl | reflexivity].
  - rewrite E. cbn [obind].
    assert (W' : bufio.wf b') by apply G.
    pose proof (grows_Buffered W G) as Mono.
    destruct e as [e|].
    + cbn [ret]. exists (None, Some e), (set_br d b').
      split; [reflexivity|]. split.
      { split; [exact W' | unfold cursor_ok; cbn [br set_br start pos]; lia]. }
      split; [reflexivity|]. split; [exact G | reflexivity].
    + specialize (He eq_refl).
      assert (Hk' : int_sub n (dotlen d) = n - dotlen d).
      { unfold int_sub in *. unfold is_int, minInt, maxInt in *.
        destruct (Z_lt_le_dec (n - dotlen d) (- 2 ^ 63)) as [Lo|Lo].
        - rewrite wrap_below in Hs by (unfold minInt; lia). lia.
        - apply wrap_id. unfold is_int, minInt, maxInt. lia. }
      rewrite Hk' in *.
      assert (DL' : dotlen (set_br d b') = dotlen d) by reflexivity.
      rewrite DL', Hk'. unfold advance.
      assert (BL : buflen (set_br d b') = bufio.Buffered b' - pos d).
      { apply (@buflen_inv (set_br d b')); [exact W' | cbn [pos set_br]; lia]. }
      rewrite BL. cbn [br pos set_br].
      destruct (bufio.Buffered b' - pos d <? n - dotlen d) eqn:Ea;
        [apply Z.ltb_lt in Ea; lia|].
      cbn [obind]. unfold int_add. rewrite wrap_id
        by (unfold is_int, minInt, maxInt in *; lia).
      set (d2 := set_pos (set_br d b') (pos d + (n - dotlen d))).
      assert (I2 : inv d2).
      { split; [exact W' | unfold cursor_ok; cbn; lia]. }
      rewrite (dot_inv I2). cbn [obind ret].
      eexists (Some _, None), d2. split; [reflexivity|].
      split; [exact I2|]. split; [reflexivity|]. split; [exact G|].
      split; [lia|]. split; [cbn; lia|]. split; [cbn; lia|].
      split; [|rewrite (dot_inv I2)]; cbn [d2 br pos start set_pos set_br];
        repeat f_equal; lia.
Qed.

(** ** The steps of a cycle *)

Lemma batch_length_app (ms1 ms2 : list Msg) :
  batch_length (ms1 ++ ms2) = batch_length ms1 + batch_length ms2.
Proof.
  unfold batch_length. rewrite fold_right_app.
  induction ms1 as [|m ms1 IH]; cbn [fold_right]; [reflexivity|].
  rewrite IH. lia.
Qed.

Lemma batch_length_nonneg (ms : list Msg) :
  Forall (fun m => 0 <= nbytes m) ms -> 0 <= batch_length ms.
Proof.
  unfold batch_length.
  induction 1 as [|m ms Hm _ IH]; cbn [fold_right]; lia.
Qed.

(** exhaustReaders is the pass of [drain_batch] over the device; it touches
    nothing else but the error field, and that only on a failure. *)
Lemma exhaustReaders_from_spec (ms : list Msg) :
  forall d,
  exhaustReaders_from ms d
  = Ret (tt, match snd (drain_batch ms (r d)) with
             | Some e => set_err (set_r d (fst (drain_batch ms (r d)))) (Some e)
             | None => set_r d (fst (drain_batch ms (r d)))
             end).
Proof.
  induction ms as [|m ms IH]; intros d.
  - cbn. unfold ret, set_r, r. destruct d as [? [? ? ? ? ?] ? ? ? ?]. reflexivity.
  - cbn [exhaustReaders_from drain_batch]. destruct (drain m) as [copy|].
    + destruct (copy (r d)) as [src [e|]] eqn:Ec; [reflexivity|].
      rewrite IH. cbn [fst snd]. unfold set_r, set_br, set_err, r.
      cbn [br bufio.rd bufio.buf bufio.r bufio.w bufio.err MaxSize start pos msg err].
      destruct (drain_batch ms src) as [src' [e|]]; reflexivity.
    + apply IH.
Qed.

Lemma drain_batch_stops (ms1 ms2 : list Msg) (m : Msg)
      (copy : io.Reader -> io.Reader * option error) :
  forall src src' e,
  snd (drain_batch ms1 src) = None ->
  drain m = Some copy ->
  copy (fst (drain_batch ms1 src)) = (src', Some e) ->
  drain_batch (ms1 ++ m :: ms2) src = (src', Some e).
Proof.
  induction ms1 as [|m1 ms1 IH]; intros src src' e Hok Hm Hfail.
  - cbn in *. now rewrite Hm, Hfail.
  - cbn [app drain_batch] in *. destruct (drain m1) as [c1|].
    + destruct (c1 src) as [s1 [e1|]]; [discriminate|]. now apply IH.
    + now apply IH.
Qed.

(** dropMessages returns on every well-formed reader and touches only the
    reader and the error field. *)
Lemma dropMessages_from_returns (ms : list Msg) :
  forall d, bufio.wf (br d) ->
  exists d', dropMessages_from ms d = Ret (tt, d') /\ bufio.wf (br d') /\
             start d' = start d /\ pos d' = pos d /\ msg d' = msg d /\
             MaxSize d' = MaxSize d.
Proof.
  induction ms as [|m ms IH]; intros d W.
  - exists d. split; [reflexivity|]. split; [exact W|]. repeat split.
  - cbn [dropMessages_from].
    destruct (@discard_spec (br d) (nbytes m) W) as (b' & e & E & W' & _).
    rewrite E. cbn [obind]. destruct e as [e|].
    + eexists. split; [reflexivity|]. split; [exact W'|]. repeat split.
    + destruct (IH (set_br d b') W') as (d' & E' & W'' & ? & ? & ? & ?).
      exists d'. split; [exact E'|]. split; [exact W''|]. cbn in *.
      repeat split; assumption.
Qed.

(** When the reader supplies the bytes of the messages, each discard
    succeeds and the stream moves on by their total length. *)
Lemma dropMessages_from_supplied (ms : list Msg) :
  forall d L, bufio.wf (br d) ->
  Forall (fun m => 0 <= nbytes m) ms ->
  batch_length ms <= L -> bufio.supplies (br d) L ->
  exists d', dropMessages_from ms d = Ret (tt, d') /\ bufio.wf (br d') /\
             err d' = err d /\ start d' = start d /\ pos d' = pos d /\
             msg d' = msg d /\
             stream d' = skipn (Z.to_nat (batch_length ms)) (stream d) /\
             bufio.supplies (br d') (L - batch_length ms).
Proof.
  induction ms as [|m ms IH]; intros d L W Hnn HL S.
  - exists d. cbn [batch_length fold_right]. rewrite Z.sub_0_r.
    split; [reflexivity|]. split; [exact W|]. repeat split. exact S.
  - inversion Hnn as [|? ? Hm Hms]; subst.
    pose proof (batch_length_nonneg Hms) as Hrest.
    cbn [dropMessages_from]. cbn [batch_length fold_right] in *.
    fold (batch_length ms) in *.
    destruct (@discard_spec (br d) (nbytes m) W) as (b' & e & E & W' & _ & _ & Hp & Hs).
    destruct (Hs L ltac:(lia) S) as [-> S'].
    destruct (Hp Hm eq_refl) as [P' Pl].
    rewrite E. cbn [obind].
    destruct (IH (set_br d b') (L - nbytes m) W' Hms ltac:(lia) S')
      as (d' & E' & W'' & He & Hst & Hpo & Hmsg & Hstream & S'').
    exists d'. split; [exact E'|]. split; [exact W''|].
    split; [exact He|]. split; [exact Hst|]. split; [exact Hpo|].
    split; [exact Hmsg|]. split.
    + rewrite Hstream. unfold stream. cbn [br set_br]. rewrite P', skipn_skipn.
      f_equal. lia.
    + replace (L - (nbytes m + batch_length ms)) with (L - nbytes m - batch_length ms)
        by lia. exact S''.
Qed.

(** A pass of dropMessages that starts without a stored error and ends
    without one has discarded every message: each discard returned nil and
    took exactly the message's length off the front of the stream. *)
Lemma dropMessages_from_clean (ms : list Msg) :
  forall d d', bufio.wf (br d) ->
  Forall (fun m => 0 <= nbytes m) ms ->
  err d = None ->
  dropMessages_from ms d = Ret (tt, d') -> err d' = None ->
  stream d' = skipn (Z.to_nat (batch_length ms)) (stream d) /\
  forall ms1 m ms2, ms = ms1 ++ m :: ms2 ->
    exists d1 b2,
      dropMessages_from ms1 d = Ret (tt, d1) /\
      stream d1 = skipn (Z.to_nat (batch_length ms1)) (stream d) /\
      discard (br d1) (nbytes m) = Ret (b2, None) /\
      bufio.pending b2 = skipn (Z.to_nat (nbytes m)) (stream d1).
Proof.
  induction ms as [|m ms IH]; intros d d' W Hnn He E He'.
  - cbn in E. injection E as <-. split; [reflexivity|].
    intros [|? ?] ? ? Habs; discriminate.
  - inversion Hnn as [|? ? Hm Hms]; subst.
    pose proof (batch_length_nonneg Hms) as Hrest.
    cbn [dropMessages_from] in E.
    destruct (@discard_spec (br d) (nbytes m) W) as (b' & e & Ed & W' & _ & _ & Hp & _).
    rewrite Ed in E. cbn [obind] in E.
    destruct e as [e|].
    { injection E as <-. cbn in He'. discriminate. }
    destruct (Hp Hm eq_refl) as [P' _].
    destruct (IH (set_br d b') d' W' Hms He E He') as [Hstream Hsplit].
    split.
    + rewrite Hstream. unfold stream. cbn [br set_br]. rewrite P', skipn_skipn.
      cbn [batch_length fold_right]. fold (batch_length ms). f_equal. lia.
    + intros ms1 m0 ms2 Hcut. destruct ms1 as [|m1 ms1].
      * cbn [app] in Hcut. injection Hcut as <- <-.
        exists d, b'. split; [reflexivity|]. split; [reflexivity|].
        split; [exact Ed | exact P'].
      * cbn [app] in Hcut. injection Hcut as <- ->.
        destruct (Hsplit ms1 m0 ms2 eq_refl) as (d1 & b2 & E1 & S1 & D2 & P2).
        exists d1, b2. split; [cbn [dropMessages_from]; rewrite Ed; exact E1|].
        split; [|split; assumption].
        rewrite S1. unfold stream. cbn [br set_br]. rewrite P', skipn_skipn.
        cbn [batch_length fold_right]. fold (batch_length ms1).
        pose proof (batch_length_nonneg
                      (proj1 (proj1 (Forall_app _ _ _) Hms))) as H1.
        f_equal. lia.
Qed.

(** The steps that open a cycle return on every well-formed reader.
    exhaustReaders is the pass of [drain_batch]: it changes the device and,
    on a failure, the error field; dropMessages then goes through the batch
    exhaustReaders found. *)
Lemma opening_steps_spec (d : Decoder) :
  bufio.wf (br d) ->
  exists d1 d2,
    exhaustReaders d = Ret (tt, d1) /\
    dropMessages_from (msg d) d1 = Ret (tt, d2) /\
    dropMessages d1 = Ret (tt, set_msg d2 []) /\
    r d1 = fst (drain_batch (msg d) (r d)) /\
    err d1 = match snd (drain_batch (msg d) (r d)) with
             | Some e => Some e
             | None => err d
             end /\
    msg d1 = msg d /\ bufio.buffered (br d1) = bufio.buffered (br d) /\
    bufio.wf (br d2).
Proof.
  intros W.
  pose proof (exhaustReaders_from_spec (msg d) d) as E1.
  set (d1 := match snd (drain_batch (msg d) (r d)) with
             | Some e => set_err (set_r d (fst (drain_batch (msg d) (r d)))) (Some e)
             | None => set_r d (fst (drain_batch (msg d) (r d)))
             end) in *.
  assert (F : r d1 = fst (drain_batch (msg d) (r d)) /\
              err d1 = match snd (drain_batch (msg d) (r d)) with
                       | Some e => Some e
                       | None => err d
                       end /\
              msg d1 = msg d /\ bufio.buffered (br d1) = bufio.buffered (br d) /\
              bufio.wf (br d1)).
  { unfold d1. destruct (snd (drain_batch (msg d) (r d))); repeat split; apply W. }
  destruct F as (F1 & F2 & F3 & F4 & W1).
  destruct (@dropMessages_from_returns (msg d) d1 W1) as (d2 & E2 & W2 & _).
  exists d1, d2. split; [exact E1|]. split; [exact E2|].
  split; [unfold dropMessages, bind; rewrite F3, E2; reflexivity|].
  repeat split; assumption || apply W2.
Qed.

(** The three steps that open a cycle return on every well-formed reader and
    leave a decoder that satisfies the invariant. *)
Lemma cycle_opening_inv (d : Decoder) :
  bufio.wf (br d) ->
  exists d', (exhaustReaders ;; dropMessages ;; resetdot) d = Ret (tt, d') /\
             inv d'.
Proof.
  intros W.
  destruct (@opening_steps_spec d W) as (d1 & d2 & E1 & _ & E3 & _ & _ & _ & _ & W2).
  unfold bind at 1. rewrite E1. cbn [obind].
  unfold bind at 1. rewrite E3. cbn [obind]. unfold resetdot.
  eexists. split; [reflexivity|]. split; [exact W2|].
  unfold cursor_ok, bufio.Buffered. cbn [start pos br set_pos set_start set_msg]. lia.
Qed.

(** A stored error stays through a cycle that starts from an empty batch:
    Next returns false, the fetch is not run, the error is the same. *)
Lemma Next_keeps_error (fetchMessages : M (option error)) (d : Decoder) (e : error) :
  err d = Some e -> msg d = [] ->
  exists d', Next fetchMessages d = Ret (false, d') /\ err d' = Some e /\ msg d' = [].
Proof.
  intros He Hm. destruct d as [mx b st po ms er]. cbn in He, Hm. subst er ms.
  eexists. split; [reflexivity|]. split; reflexivity.
Qed.

(** An error that the opening steps of a cycle leave in the error field is
    there after the call and after every later call: the batch is empty by
    then, so no step assigns the field again. *)
Lemma Next_error_sticky (fetchMessages : M (option error)) (d : Decoder) (e : error) :
  bufio.wf (br d) ->
  err (after (exhaustReaders ;; dropMessages ;; resetdot) d) = Some e ->
  exists d1 d2,
    Next fetchMessages d = Ret (false, d1) /\ err d1 = Some e /\
    Next fetchMessages d1 = Ret (false, d2) /\ err d2 = Some e.
Proof.
  intros W.
  destruct (@opening_steps_spec d W) as (d1 & d2 & E1 & _ & E3 & _).
  unfold after, Next, bind. rewrite E1. cbn [obind]. rewrite E3. cbn [obind].
  unfold resetdot. cbn [obind].
  set (d3 := set_pos (set_start (set_msg d2 []) 0) 0). intros He. rewrite He.
  destruct (@Next_keeps_error fetchMessages d3 e He eq_refl) as (d4 & E4 & He4 & _).
  exists d3, d4. repeat split; assumption.
Qed.

(** ** The sample decoders *)

Ltac by_computation :=
  vm_compute; repeat split; try discriminate; try reflexivity; repeat constructor.

Lemma sample_window_inv : inv sample_window.
Proof. by_computation. Defined.

Lemma sample_marked_eq :
  sample_marked =
  {| MaxSize := -1;
     br := {| bufio.buf := [x01; x02; x03; x00; x00; x00; x00; x00;
                            x00; x00; x00; x00; x00; x00; x00; x00];
              bufio.rd := {| io.chunks := [[x04; x05]; []; [x06; x07; x08; x09]];
                             io.final := EOF |};
              bufio.r := 0; bufio.w := 3; bufio.err := None |};
     start := 3; pos := 3; msg := []; err := None |}.
Proof. vm_compute. reflexivity. Qed.

Lemma sample_marked_inv : inv sample_marked.
Proof.
  rewrite sample_marked_eq. unfold inv, bufio.wf, cursor_ok, bufio.Buffered, maxInt.
  cbn. lia.
Defined.

(** ** The decode cycle *)

(** C1, where the claim fails: the reader of the one message of the batch
    fails, which sets the error field, and the cycle goes on all the same:
    dropMessages discards the two bytes of the message and empties the
    batch, resetdot zeroes the cursor; only the fetch is left out. *)
Lemma reader_failure_does_not_stop_cycle :
  exists d1,
    exhaustReaders sample_stale = Ret (tt, d1) /\
    err d1 = Some (ErrDevice "connection reset") /\
    msg d1 = [failing_body {| off := 0; len := 2 |} 2] /\ start d1 = 1 /\ pos d1 = 3 /\
    forall fm, exists d',
      Next fm sample_stale = Ret (false, d') /\
      stream d' = skipn 2 (stream d1) /\ stream d' <> stream d1 /\
      msg d' = [] /\ start d' = 0 /\ pos d' = 0.
Proof.
  eexists. split; [vm_compute; reflexivity|].
  split; [reflexivity|]. split; [reflexivity|].
  split; [reflexivity|]. split; [reflexivity|].
  intros fm. eexists. split; [vm_compute; reflexivity|].
  split; [vm_compute; reflexivity|].
  split; [vm_compute; discriminate|].
  repeat split.
Qed.

(** C1, amended. Next runs exhaustReaders, dropMessages and resetdot in this
    order, each of them whatever the error field holds, and then the fetch
    only when the error field is nil. exhaustReaders drains the readable
    messages of the previous batch in batch order and stops at the first one
    that fails, whose error it stores; it leaves the batch and the buffered
    bytes alone. dropMessages then works through the same batch and empties
    it. After resetdot the cursor is zero. A stored error makes Next return
    false without a fetch; otherwise Next returns whether the fetch reported
    no error. *)
Theorem Next_runs_steps_in_order (fetchMessages : M (option error)) (d : Decoder) :
  bufio.wf (br d) ->
  exists d1 d2,
    exhaustReaders d = Ret (tt, d1) /\
    dropMessages_from (msg d) d1 = Ret (tt, d2) /\
    dropMessages d1 = Ret (tt, set_msg d2 []) /\
    r d1 = fst (drain_batch (msg d) (r d)) /\
    err d1 = match snd (drain_batch (msg d) (r d)) with
             | Some e => Some e
             | None => err d
             end /\
    (forall ms1 m ms2 copy src' e,
        msg d = ms1 ++ m :: ms2 ->
        snd (drain_batch ms1 (r d)) = None ->
        drain m = Some copy ->
        copy (fst (drain_batch ms1 (r d))) = (src', Some e) ->
        r d1 = src' /\ err d1 = Some e) /\
    msg d1 = msg d /\ bufio.buffered (br d1) = bufio.buffered (br d) /\
    Next fetchMessages d
    = let d3 := set_pos (set_start (set_msg d2 []) 0) 0 in
      match err d3 with
      | Some _ => Ret (false, d3)
      | None =>
          obind (fetchMessages d3) (fun '(e, d4) =>
            Ret (match e with Some _ => false | None => true end, d4))
      end.
Proof.
  intros W.
  destruct (@opening_steps_spec d W) as (d1 & d2 & E1 & E2 & E3 & F1 & F2 & F3 & F4 & _).
  exists d1, d2. split; [exact E1|]. split; [exact E2|]. split; [exact E3|].
  split; [exact F1|]. split; [exact F2|].
  split.
  { intros ms1 m ms2 copy src' e Hsplit Hok Hm Hfail.
    rewrite F1, F2, Hsplit.
    now rewrite (@drain_batch_stops ms1 ms2 m copy (r d) src' e Hok Hm Hfail). }
  split; [exact F3|]. split; [exact F4|].
  unfold Next, bind at 1. rewrite E1. cbn [obind].
  unfold bind at 1. rewrite E3. cbn [obind].
  unfold bind at 1, resetdot. cbn [obind]. cbv zeta.
  destruct (err (set_pos (set_start (set_msg d2 []) 0) 0)); [reflexivity|].
  unfold bind. destruct (fetchMessages _) as [[[e|] d4]| |]; reflexivity.
Qed.

Lemma Next_runs_steps_in_order_witness :
  bufio.wf (br sample_stale) /\
  exists d1 d2,
    exhaustReaders sample_stale = Ret (tt, d1) /\
    dropMessages_from (msg sample_stale) d1 = Ret (tt, d2) /\
    dropMessages d1 = Ret (tt, set_msg d2 []) /\
    r d1 = fst (drain_batch (msg sample_stale) (r sample_stale)) /\
    err d1 = match snd (drain_batch (msg sample_stale) (r sample_stale)) with
             | Some e => Some e
             | None => err sample_stale
             end /\
    (forall ms1 m ms2 copy src' e,
        msg sample_stale = ms1 ++ m :: ms2 ->
        snd (drain_batch ms1 (r sample_stale)) = None ->
        drain m = Some copy ->
        copy (fst (drain_batch ms1 (r sample_stale))) = (src', Some e) ->
        r d1 = src' /\ err d1 = Some e) /\
    msg d1 = msg sample_stale /\
    bufio.buffered (br d1) = bufio.buffered (br sample_stale) /\
    Next fetch_nothing sample_stale
    = let d3 := set_pos (set_start (set_msg d2 []) 0) 0 in
      match err d3 with
      | Some _ => Ret (false, d3)
      | None =>
          obind (fetch_nothing d3) (fun '(e, d4) =>
            Ret (match e with Some _ => false | None => true end, d4))
      end.
Proof.
  assert (W : bufio.wf (br sample_stale)) by by_computation.
  split; [exact W|].
  exact (@Next_runs_steps_in_order fetch_nothing sample_stale W).
Defined.

(** ** fill and the size computation *)

(** C2. fill(n) checks the size computation before it reads: when pos + n
    exceeds the largest int it returns errFillOverflow and leaves the decoder,
    and so the window buffer, untouched; for every n it returns normally (it
    never panics); and when it returns nil at least n bytes are buffered past
    pos. *)
Theorem fill_overflow_checked (d : Decoder) (n : Z) :
  bufio.wf (br d) -> 0 <= pos d <= maxInt -> is_int n ->
  exists e d',
    fill n d = Ret (e, d') /\
    (maxInt < pos d + n -> e = Some errFillOverflow /\ d' = d) /\
    (e = None -> n <= buflen d') /\
    pos d' = pos d /\ start d' = start d.
Proof.
  intros W P N.
  destruct (@fill_cases d n W P N) as [[Hc E] | (Hn & Hs & b' & sl & e & HP & E & G & He)].
  - exists (Some errFillOverflow), d. split; [exact E|].
    split; [auto|]. split; [discriminate | auto].
  - exists e, (set_br d b'). split; [exact E|].
    split; [intros; lia|]. split; [|split; reflexivity].
    intros H. specialize (He H).
    rewrite buflen_inv; cbn [br pos set_br]; [lia | apply G | lia].
Qed.

Lemma fill_overflow_checked_witness :
  bufio.wf (br sample_marked) /\ 0 <= pos sample_marked <= maxInt /\
  is_int (maxInt - 1) /\
  exists e d',
    fill (maxInt - 1) sample_marked = Ret (e, d') /\
    (maxInt < pos sample_marked + (maxInt - 1) ->
     e = Some errFillOverflow /\ d' = sample_marked) /\
    (e = None -> maxInt - 1 <= buflen d') /\
    pos d' = pos sample_marked /\ start d' = start sample_marked.
Proof.
  assert (W : bufio.wf (br sample_marked)) by apply sample_marked_inv.
  assert (P : 0 <= pos sample_marked <= maxInt)
    by (rewrite sample_marked_eq; unfold maxInt; cbn; lia).
  assert (N : is_int (maxInt - 1)) by (unfold is_int, minInt, maxInt; lia).
  split; [exact W|]. split; [exact P|]. split; [exact N|].
  exact (@fill_overflow_checked sample_marked (maxInt - 1) W P N).
Defined.

(** ** The error field *)

(** C3, the failing input. The body reader of the one message of the batch
    fails with a device error, which exhaustReaders stores; in the same call
    dropMessages runs out of input while it discards the message and stores
    io.EOF over it. The first error is lost, and Err then reports nil. *)
Theorem first_error_overwritten :
  (exists d1, exhaustReaders sample_truncated = Ret (tt, d1) /\
              err d1 = Some (ErrDevice "connection reset")) /\
  forall fm, exists d',
    Next fm sample_truncated = Ret (false, d') /\
    err d' = Some EOF /\ Err d' = None.
Proof.
  split.
  - eexists. split; [vm_compute; reflexivity | reflexivity].
  - intros fm. eexists. split; [vm_compute; reflexivity|].
    split; reflexivity.
Qed.

(** C4. Err turns a stored io.EOF into nil and returns every other stored
    error as it is, io.ErrUnexpectedEOF included. *)
Theorem Err_normalizes_EOF (d : Decoder) :
  match err d with
  | None => Err d = None
  | Some e => (e = EOF /\ Err d = None) \/ (e <> EOF /\ Err d = Some e)
  end /\
  Err (set_err d (Some EOF)) = None /\
  Err (set_err d (Some ErrUnexpectedEOF)) = Some ErrUnexpectedEOF.
Proof.
  split; [|split; reflexivity].
  unfold Err. destruct (err d) as [e|]; [|reflexivity].
  destruct e; cbn; try (right; split; [discriminate | reflexivity]).
  left. split; reflexivity.
Qed.

(** ** Discarding the previous batch *)

(** C5. In a cycle that goes without an error (none stored before
    dropMessages, none after) and for messages whose byte length is not
    negative, dropMessages discards from the front of the window buffer, for
    each message of the previous batch in batch order, exactly that message's
    nbytes() bytes; so after dropMessages and resetdot the window sits at
    the cursor origin exactly L bytes further in the stream, L the total
    length of the batch, whatever the batch holds. *)
Theorem dropMessages_discards_batch (d : Decoder) :
  bufio.wf (br d) ->
  Forall (fun m => 0 <= nbytes m) (msg d) ->
  err d = None -> err (after dropMessages d) = None ->
  (exists d', (dropMessages ;; resetdot) d = Ret (tt, d') /\
              msg d' = [] /\ err d' = None /\ start d' = 0 /\ pos d' = 0 /\
              stream d' = skipn (Z.to_nat (batch_length (msg d))) (stream d)) /\
  (forall ms1 m ms2, msg d = ms1 ++ m :: ms2 ->
     exists d1 b2,
       dropMessages_from ms1 d = Ret (tt, d1) /\
       stream d1 = skipn (Z.to_nat (batch_length ms1)) (stream d) /\
       discard (br d1) (nbytes m) = Ret (b2, None) /\
       bufio.pending b2 = skipn (Z.to_nat (nbytes m)) (stream d1)).
Proof.
  intros W Hnn He. 
  destruct (@dropMessages_from_returns (msg d) d W) as (d2 & E & _).
  unfold after, dropMessages, bind. rewrite E. cbn [obind]. intros He'.
  change (err d2 = None) in He'.
  destruct (@dropMessages_from_clean (msg d) d d2 W Hnn He E He') as [Hstream Hsplit].
  split; [|exact Hsplit].
  unfold resetdot. eexists. split; [reflexivity|].
  cbn [msg err start pos set_pos set_start set_msg].
  repeat split; assumption.
Qed.

Lemma dropMessages_discards_batch_witness :
  bufio.wf (br sample_batch) /\
  Forall (fun m => 0 <= nbytes m) (msg sample_batch) /\
  err sample_batch = None /\ err (after dropMessages sample_batch) = None /\
  (exists d', (dropMessages ;; resetdot) sample_batch = Ret (tt, d') /\
              msg d' = [] /\ err d' = None /\ start d' = 0 /\ pos d' = 0 /\
              stream d' = skipn (Z.to_nat (batch_length (msg sample_batch)))
                                (stream sample_batch)) /\
  (forall ms1 m ms2, msg sample_batch = ms1 ++ m :: ms2 ->
     exists d1 b2,
       dropMessages_from ms1 sample_batch = Ret (tt, d1) /\
       stream d1 = skipn (Z.to_nat (batch_length ms1)) (stream sample_batch) /\
       discard (br d1) (nbytes m) = Ret (b2, None) /\
       bufio.pending b2 = skipn (Z.to_nat (nbytes m)) (stream d1)).
Proof.
  assert (W : bufio.wf (br sample_batch)) by by_computation.
  assert (F : Forall (fun m => 0 <= nbytes m) (msg sample_batch)).
  { repeat constructor; cbn; lia. }
  assert (E0 : err sample_batch = None) by reflexivity.
  assert (E1 : err (after dropMessages sample_batch) = None)
    by (vm_compute; reflexivity).
  split; [exact W|]. split; [exact F|]. split; [exact E0|]. split; [exact E1|].
  exact (@dropMessages_discards_batch sample_batch W F E0 E1).
Defined.

(** ** The cursor operations and the invariant *)

(** C6, where the claim fails: a negative count passes the bounds check of
    advance, which then moves pos below start without a panic. *)
Lemma advance_negative_breaks_invariant :
  inv sample_marked /\
  exists d', advance (-1) sample_marked = Ret (tt, d') /\
             start d' = 3 /\ pos d' = 2 /\ ~ cursor_ok d'.
Proof.
  split; [exact sample_marked_inv|].
  eexists. split; [vm_compute; reflexivity|].
  split; [reflexivity|]. split; [reflexivity|].
  unfold cursor_ok. cbn [start pos]. lia.
Qed.

(** C6, amended. From a decoder that satisfies 0 <= start <= pos <= buffered
    length, and for a count n >= 0: resetdot and mark keep the invariant;
    advance(n) panics when n exceeds the bytes buffered past pos and otherwise
    keeps the invariant; shrinkdot(n) panics when n exceeds the dot length and
    otherwise keeps the invariant; dot returns without a change of state, and
    panics on any decoder whose pos is past the buffered length; growdot(m)
    returns for every int m, negative or overflowing ones included, with a
    value or an error and never a panic, and keeps the invariant; and the
    three steps that open a cycle (exhaustReaders, dropMessages, resetdot)
    return without a panic and hand the invariant on to the fetch. *)
Theorem cursor_operations_keep_invariant (d : Decoder) (n m : Z) :
  inv d -> 0 <= n -> is_int m ->
  (exists d', resetdot d = Ret (tt, d') /\ inv d') /\
  (exists d', mark d = Ret (tt, d') /\ inv d') /\
  (if buflen d <? n then advance n d = Panic "advance decoder out of bounds"
   else exists d', advance n d = Ret (tt, d') /\ inv d') /\
  (if dotlen d <? n then shrinkdot n d = Panic "shrink dot out of bounds"
   else exists d', shrinkdot n d = Ret (tt, d') /\ inv d') /\
  (exists sl, dot d = Ret (sl, d)) /\
  (forall d0, bufio.Buffered (br d0) < pos d0 ->
              dot d0 = Panic "decoder position out of bounds") /\
  (exists res d', growdot m d = Ret (res, d') /\ inv d') /\
  (exists d', (exhaustReaders ;; dropMessages ;; resetdot) d = Ret (tt, d') /\
              inv d').
Proof.
  intros I Hn Hm. pose proof I as [W [[S0 SP] PB]].
  pose proof (inv_pos_int I) as PI.
  pose proof (Buffered_bounds W) as BB.
  assert (BL : buflen d = bufio.Buffered (br d) - pos d)
    by (apply buflen_inv; [exact W | lia]).
  pose proof (dotlen_inv I) as DL.
  split.
  { eexists. split; [reflexivity|]. split; [exact W|].
    unfold cursor_ok. cbn [start pos br set_pos set_start]. lia. }
  split.
  { eexists. split; [reflexivity|]. split; [exact W|].
    unfold cursor_ok. cbn [start pos br set_pos set_start]. lia. }
  split.
  { unfold advance. destruct (buflen d <? n) eqn:E; [reflexivity|].
    apply Z.ltb_ge in E. eexists. split; [reflexivity|]. split; [exact W|].
    unfold cursor_ok, int_add. cbn [start pos br set_pos].
    rewrite wrap_id by (unfold is_int, minInt, maxInt in *; lia). lia. }
  split.
  { unfold shrinkdot. destruct (dotlen d <? n) eqn:E; [reflexivity|].
    apply Z.ltb_ge in E. eexists. split; [reflexivity|]. split; [exact W|].
    unfold cursor_ok, int_sub. cbn [start pos br set_pos].
    rewrite wrap_id by (unfold is_int, minInt, maxInt in *; lia). lia. }
  split.
  { eexists. apply (dot_inv I). }
  split.
  { intros d0. apply dot_out_of_bounds. }
  split.
  { destruct (growdot_spec I Hm) as (res & d' & E & I' & _).
    exists res, d'. split; assumption. }
  apply cycle_opening_inv. exact W.
Qed.

Lemma cursor_operations_keep_invariant_witness :
  inv sample_window /\ 0 <= 1 /\ is_int (-5) /\
  (exists d', resetdot sample_window = Ret (tt, d') /\ inv d') /\
  (exists d', mark sample_window = Ret (tt, d') /\ inv d') /\
  (if buflen sample_window <? 1
   then advance 1 sample_window = Panic "advance decoder out of bounds"
   else exists d', advance 1 sample_window = Ret (tt, d') /\ inv d') /\
  (if dotlen sample_window <? 1
   then shrinkdot 1 sample_window = Panic "shrink dot out of bounds"
   else exists d', shrinkdot 1 sample_window = Ret (tt, d') /\ inv d') /\
  (exists sl, dot sample_window = Ret (sl, sample_window)) /\
  (forall d0, bufio.Buffered (br d0) < pos d0 ->
              dot d0 = Panic "decoder position out of bounds") /\
  (exists res d', growdot (-5) sample_window = Ret (res, d') /\ inv d') /\
  (exists d', (exhaustReaders ;; dropMessages ;; resetdot) sample_window
              = Ret (tt, d') /\ inv d').
Proof.
  assert (N : 0 <= 1) by lia.
  assert (Mi : is_int (-5)) by (unfold is_int, minInt, maxInt; lia).
  split; [exact sample_window_inv|]. split; [exact N|]. split; [exact Mi|].
  exact (@cursor_operations_keep_invariant sample_window 1 (-5)
           sample_window_inv N Mi).
Defined.

(** ** Round trips of the cursor *)

(** C7. From a decoder whose cursor is in bounds, mark followed by dot
    returns an empty span; and when growdot(n) succeeds, the span it returns
    is what dot returns afterwards, is n bytes long (dotlen is n), and holds
    the n bytes of the input stream that start at the dot's start offset. *)
Theorem cursor_round_trip (d : Decoder) (n : Z) (sl : slice) (d' : Decoder) :
  inv d -> is_int n -> growdot n d = Ret ((Some sl, None), d') ->
  (exists sl0 d0, (mark ;; dot) d = Ret (sl0, d0) /\
                  len sl0 = 0%nat /\ bufio.view (br d0) sl0 = []) /\
  dot d' = Ret (sl, d') /\
  Z.of_nat (len sl) = n /\
  dotlen d' = n /\
  bufio.view (br d') sl
  = firstn (Z.to_nat n) (skipn (Z.to_nat (start d)) (stream d)).
Proof.
  intros I N E. pose proof I as [W [[S0 SP] PB]].
  split.
  { assert (I0 : inv (set_start d (pos d))).
    { split; [exact W | unfold cursor_ok; cbn [start pos br set_start]; lia]. }
    unfold bind, mark. cbn [obind]. rewrite (dot_inv I0).
    do 2 eexists. split; [reflexivity|].
    cbn [len start pos set_start]. rewrite Nat.sub_diag.
    split; reflexivity. }
  destruct (growdot_spec I N) as (res & d1 & E1 & I1 & S1 & G & R).
  rewrite E in E1. injection E1 as <- <-.
  destruct R as (Hn & P1 & _ & -> & D1).
  split; [exact D1|].
  split; [cbn [len]; lia|].
  split; [rewrite (dotlen_inv I1); lia|].
  destruct G as (_ & _ & Pend & _). unfold stream. rewrite <- Pend.
  apply view_pending; [apply I1|].
  destruct I1 as [[W1 _] [_ PB1]]. unfold bufio.Buffered in PB1. lia.
Qed.

Lemma cursor_round_trip_witness :
  inv sample_marked /\ is_int 4 /\
  growdot 4 sample_marked
  = Ret ((Some {| off := 3; len := 4 |}, None), after (growdot 4) sample_marked) /\
  (exists sl0 d0, (mark ;; dot) sample_marked = Ret (sl0, d0) /\
                  len sl0 = 0%nat /\ bufio.view (br d0) sl0 = []) /\
  dot (after (growdot 4) sample_marked)
  = Ret ({| off := 3; len := 4 |}, after (growdot 4) sample_marked) /\
  Z.of_nat (len {| off := 3; len := 4 |}) = 4 /\
  dotlen (after (growdot 4) sample_marked) = 4 /\
  bufio.view (br (after (growdot 4) sample_marked)) {| off := 3; len := 4 |}
  = firstn (Z.to_nat 4) (skipn (Z.to_nat (start sample_marked)) (stream sample_marked)).
Proof.
  assert (N : is_int 4) by (unfold is_int, minInt, maxInt; lia).
  assert (E : growdot 4 sample_marked
              = Ret ((Some {| off := 3; len := 4 |}, None),
                     after (growdot 4) sample_marked))
    by (vm_compute; reflexivity).
  split; [exact sample_marked_inv|]. split; [exact N|]. split; [exact E|].
  exact (@cursor_round_trip sample_marked 4 _ _ sample_marked_inv N E).
Defined.

(** ** Construction, the lifetime of a batch, Reset *)



(** C9. The messages of a batch are spans of the decoder's one buffer array
    and are good only until the next cycle: here the first cycle returns a
    message that reads as the first three bytes of the input; the second
    cycle reuses the array, its message lies on the very same span, and the
    first batch, read again through its spans, now shows the bytes of the
    second. *)
Theorem stale_message_reads_overwritten_bytes :
  exists dN m,
    Next (fetch_frame 3) sample_decoder = Ret (true, dN) /\
    Messages dN = [m] /\
    read_messages dN (Messages dN) = [[x01; x02; x03]] /\
    read_messages dN (Messages dN) = [firstn 3 (stream sample_decoder)] /\
    exists dN1 m',
      Next (fetch_frame 3) dN = Ret (true, dN1) /\
      Messages dN1 = [m'] /\
      bytes m' = bytes m /\
      length (bufio.buf (br dN1)) = length (bufio.buf (br dN)) /\
      read_messages dN1 (Messages dN) = [[x04; x05; x06]] /\
      read_messages dN1 (Messages dN) = read_messages dN1 (Messages dN1) /\
      read_messages dN1 (Messages dN) <> read_messages dN (Messages dN).
Proof.
  eexists. eexists. split; [vm_compute; reflexivity|].
  split; [reflexivity|]. split; [reflexivity|]. split; [reflexivity|].
  eexists. eexists. split; [vm_compute; reflexivity|].
  split; [reflexivity|]. split; [reflexivity|]. split; [reflexivity|].
  split; [reflexivity|]. split; [reflexivity|].
  vm_compute. discriminate.
Qed.

(** C10. Reset sets MaxSize back to -1 whatever limit had been configured,
    binds the new source, zeroes the cursor, empties the batch and clears the
    error, and keeps the buffer's array. *)
Theorem Reset_discards_MaxSize (d : Decoder) (limit : Z) (src : io.Reader) :
  MaxSize (Reset (set_MaxSize d limit) src) = -1 /\
  r (Reset (set_MaxSize d limit) src) = src /\
  start (Reset (set_MaxSize d limit) src) = 0 /\
  pos (Reset (set_MaxSize d limit) src) = 0 /\
  Messages (Reset (set_MaxSize d limit) src) = [] /\
  err (Reset (set_MaxSize d limit) src) = None /\
  bufio.buf (br (Reset (set_MaxSize d limit) src)) = bufio.buf (br d) /\
  bufio.Buffered (br (Reset (set_MaxSize d limit) src)) = 0.
Proof. repeat split. Qed.

(** * Further properties of the decoder *)

(** ** Helpers *)

Lemma set_pos_same (d : Decoder) (x : Z) : set_pos (set_pos d x) (pos d) = d.
Proof. now destruct d. Qed.

(** growdot changes the reader and pos, nothing else. *)
Lemma growdot_frame (n : Z) (d d' : Decoder) (res : option slice * option error) :
  growdot n d = Ret (res, d') ->
  start d' = start d /\ msg d' = msg d /\ err d' = err d /\ MaxSize d' = MaxSize d.
Proof.
  unfold growdot, bind, fill, advance, dot, ret.
  destruct (int_sub maxInt (int_sub n (dotlen d)) <? pos d).
  { cbn [obind]. intros [= <- <-]. repeat split. }
  destruct (bufio.Peek (br d) (int_add (pos d) (int_sub n (dotlen d))))
    as [[[b sl] e]| |]; cbn [obind]; try discriminate.
  destruct e as [e|]; [intros [= <- <-]; repeat split|].
  destruct (buflen (set_br d b) <? int_sub n (dotlen (set_br d b)));
    cbn [obind]; try discriminate.
  match goal with
  | |- context [if ?c then _ else _] => destruct c; try discriminate
  end.
  match goal with
  | |- context [bufio.Peek ?x ?y] =>
      destruct (bufio.Peek x y) as [[[b2 sl2] e2]| |]; cbn [obind]; try discriminate
  end.
  destruct e2; try discriminate.
  match goal with
  | |- context [slice_from ?x ?y] =>
      destruct (slice_from x y); cbn [obind]; try discriminate
  end.
  intros [= <- <-]. repeat split.
Qed.

(** A successful growdot hands out the n bytes of the stream from start. *)
Lemma growdot_success_view (d d' : Decoder) (n : Z) (sl : slice) :
  inv d -> is_int n -> growdot n d = Ret ((Some sl, None), d') ->
  inv d' /\ start d' = start d /\ pos d' = start d + n /\ pos d <= pos d' /\
  0 <= n /\ stream d' = stream d /\ dot d' = Ret (sl, d') /\
  Z.of_nat (len sl) = n /\
  bufio.view (br d') sl
  = firstn (Z.to_nat n) (skipn (Z.to_nat (start d)) (stream d)).
Proof.
  intros I N E.
  destruct (growdot_spec I N) as (res & d1 & E1 & I1 & S1 & G & R).
  rewrite E in E1. injection E1 as <- <-.
  destruct R as (Hn & P1 & Hle & -> & D1).
  destruct G as (_ & _ & Pend & _).
  split; [exact I1|]. split; [exact S1|]. split; [exact P1|]. split; [exact Hle|].
  split; [exact Hn|]. split; [exact Pend|]. split; [exact D1|].
  split; [cbn [len]; lia|].
  unfold stream. rewrite <- Pend.
  pose proof I as [_ [[S0 _] _]].
  apply view_pending; [apply I1|].
  destruct I1 as [[W1 _] [_ PB1]]. unfold bufio.Buffered in PB1. lia.
Qed.

(** ** advance and shrinkdot *)

(** X1. On a decoder whose cursor is in bounds, advance(n) followed by
    shrinkdot(n) gives the decoder back for every 0 <= n <= buflen(), and
    shrinkdot(k) followed by advance(k) does for every 0 <= k <= dotlen();
    advance(n) moves n bytes from buflen() to dotlen(), shrinkdot(k) moves k
    bytes back. *)
Theorem advance_shrinkdot_inverse (d : Decoder) (n k : Z) :
  inv d -> 0 <= n <= buflen d -> 0 <= k <= dotlen d ->
  (advance n ;; shrinkdot n) d = Ret (tt, d) /\
  dotlen (after (advance n) d) = dotlen d + n /\
  buflen (after (advance n) d) = buflen d - n /\
  (shrinkdot k ;; advance k) d = Ret (tt, d) /\
  dotlen (after (shrinkdot k) d) = dotlen d - k /\
  buflen (after (shrinkdot k) d) = buflen d + k.
Proof.
  intros I Hn Hk. pose proof I as [W [[S0 SP] PB]].
  pose proof (inv_pos_int I) as PI. pose proof (Buffered_bounds W) as BB.
  assert (BL : buflen d = bufio.Buffered (br d) - pos d)
    by (apply buflen_inv; [exact W | lia]).
  pose proof (dotlen_inv I) as DL.
  assert (I1 : inv (set_pos d (pos d + n))).
  { split; [exact W | unfold cursor_ok; cbn [start pos br set_pos]; lia]. }
  assert (A : advance n d = Ret (tt, set_pos d (pos d + n))).
  { unfold advance. destruct (buflen d <? n) eqn:E; [apply Z.ltb_lt in E; lia|].
    unfold int_add. rewrite wrap_id by (unfold is_int, minInt, maxInt in *; lia).
    reflexivity. }
  assert (I2 : inv (set_pos d (pos d - k))).
  { split; [exact W | unfold cursor_ok; cbn [start pos br set_pos]; lia]. }
  assert (B : shrinkdot k d = Ret (tt, set_pos d (pos d - k))).
  { unfold shrinkdot. destruct (dotlen d <? k) eqn:E; [apply Z.ltb_lt in E; lia|].
    unfold int_sub. rewrite wrap_id by (unfold is_int, minInt, maxInt in *; lia).
    reflexivity. }
  assert (BL2 : buflen (set_pos d (pos d - k)) = bufio.Buffered (br d) - (pos d - k)).
  { rewrite (@buflen_inv (set_pos d (pos d - k))); cbn [br pos set_pos];
      [reflexivity | exact W | lia]. }
  unfold after, bind. rewrite A, B. cbn [obind].
  split; [|split; [|split; [|split; [|split]]]].
  - unfold shrinkdot. rewrite (dotlen_inv I1). cbn [start pos set_pos].
    destruct (pos d + n - start d <? n) eqn:E; [apply Z.ltb_lt in E; lia|].
    unfold int_sub. rewrite wrap_id by (unfold is_int, minInt, maxInt in *; lia).
    replace (pos d + n - n) with (pos d) by lia. now rewrite set_pos_same.
  - rewrite (dotlen_inv I1). cbn [start pos set_pos]. lia.
  - rewrite (@buflen_inv (set_pos d (pos d + n))); cbn [br pos set_pos];
      [lia | exact W | lia].
  - unfold advance. rewrite BL2. cbn [pos set_pos].
    destruct (bufio.Buffered (br d) - (pos d - k) <? k) eqn:E;
      [apply Z.ltb_lt in E; lia|].
    unfold int_add. rewrite wrap_id by (unfold is_int, minInt, maxInt in *; lia).
    replace (pos d - k + k) with (pos d) by lia. now rewrite set_pos_same.
  - rewrite (dotlen_inv I2). cbn [start pos set_pos]. lia.
  - rewrite BL2. lia.
Qed.

Lemma sample_mid_inv : inv sample_mid.
Proof. by_computation. Defined.

Lemma advance_shrinkdot_inverse_witness :
  inv sample_mid /\ 0 <= 2 <= buflen sample_mid /\ 0 <= 1 <= dotlen sample_mid /\
  (advance 2 ;; shrinkdot 2) sample_mid = Ret (tt, sample_mid) /\
  dotlen (after (advance 2) sample_mid) = dotlen sample_mid + 2 /\
  buflen (after (advance 2) sample_mid) = buflen sample_mid - 2 /\
  (shrinkdot 1 ;; advance 1) sample_mid = Ret (tt, sample_mid) /\
  dotlen (after (shrinkdot 1) sample_mid) = dotlen sample_mid - 1 /\
  buflen (after (shrinkdot 1) sample_mid) = buflen sample_mid + 1.
Proof.
  assert (N : 0 <= 2 <= buflen sample_mid) by (vm_compute; split; discriminate).
  assert (K : 0 <= 1 <= dotlen sample_mid) by (vm_compute; split; discriminate).
  split; [exact sample_mid_inv|]. split; [exact N|]. split; [exact K|].
  exact (@advance_shrinkdot_inverse sample_mid 2 1 sample_mid_inv N K).
Defined.

(** ** dot and growdot *)

(** X2. On a decoder whose cursor is in bounds, dot returns, without a change
    of state, a span of dotlen() bytes whose content is the bytes of the
    stream from offset start up to offset pos. *)
Theorem dot_is_stream_window (d : Decoder) :
  inv d ->
  exists sl,
    dot d = Ret (sl, d) /\
    Z.of_nat (len sl) = dotlen d /\
    bufio.view (br d) sl
    = firstn (Z.to_nat (pos d - start d)) (skipn (Z.to_nat (start d)) (stream d)).
Proof.
  intros I. pose proof I as [W [[S0 SP] PB]].
  eexists. split; [apply (dot_inv I)|].
  split; [rewrite (dotlen_inv I); cbn [len]; lia|].
  replace (Z.to_nat (pos d - start d)) with (Z.to_nat (pos d) - Z.to_nat (start d))%nat
    by lia.
  apply view_pending; [exact W|].
  destruct W as [W _]. unfold bufio.Buffered in PB. lia.
Qed.

Lemma dot_is_stream_window_witness :
  inv sample_window /\
  exists sl,
    dot sample_window = Ret (sl, sample_window) /\
    Z.of_nat (len sl) = dotlen sample_window /\
    bufio.view (br sample_window) sl
    = firstn (Z.to_nat (pos sample_window - start sample_window))
             (skipn (Z.to_nat (start sample_window)) (stream sample_window)).
Proof.
  split; [exact sample_window_inv|].
  exact (@dot_is_stream_window sample_window sample_window_inv).
Defined.

(** X3. growdot(n) never consumes input and never stores an error: for every
    int n it returns with the stream, start, the batch, the error field and
    MaxSize as they were, and with the bytes that were buffered still
    buffered in front; when it fails pos is unchanged as well. *)
Theorem growdot_never_consumes (d : Decoder) (n : Z) :
  inv d -> is_int n ->
  exists res d',
    growdot n d = Ret (res, d') /\
    stream d' = stream d /\
    (exists extra, bufio.buffered (br d') = bufio.buffered (br d) ++ extra) /\
    start d' = start d /\ msg d' = msg d /\ err d' = err d /\
    MaxSize d' = MaxSize d /\
    match snd res with
    | Some _ => pos d' = pos d /\ fst res = None
    | None => pos d <= pos d'
    end.
Proof.
  intros I N.
  destruct (growdot_spec I N) as (res & d' & E & I' & S & G & R).
  destruct (growdot_frame _ _ E) as (_ & Fm & Fe & Fx).
  exists res, d'. split; [exact E|].
  destruct G as (_ & _ & Pend & Ext).
  split; [exact Pend|]. split; [exact Ext|].
  split; [exact S|]. split; [exact Fm|]. split; [exact Fe|]. split; [exact Fx|].
  destruct res as [[sl|] [e|]]; cbn [fst snd]; cbn in R; try contradiction.
  - now destruct R as (_ & _ & Hle & _).
  - split; [exact R | reflexivity].
Qed.

Lemma growdot_never_consumes_witness :
  inv sample_window /\ is_int 40 /\
  exists res d',
    growdot 40 sample_window = Ret (res, d') /\
    stream d' = stream sample_window /\
    (exists extra, bufio.buffered (br d') = bufio.buffered (br sample_window) ++ extra) /\
    start d' = start sample_window /\ msg d' = msg sample_window /\
    err d' = err sample_window /\ MaxSize d' = MaxSize sample_window /\
    match snd res with
    | Some _ => pos d' = pos sample_window /\ fst res = None
    | None => pos sample_window <= pos d'
    end.
Proof.
  assert (N : is_int 40) by (unfold is_int, minInt, maxInt; lia).
  split; [exact sample_window_inv|]. split; [exact N|].
  exact (@growdot_never_consumes sample_window 40 sample_window_inv N).
Defined.

(** X4. growdot cannot shrink the dot: asked for fewer bytes than the dot
    already holds, a negative count included, it returns errFillOverflow and
    leaves the decoder as it was. *)
Theorem growdot_cannot_shrink (d : Decoder) (n : Z) :
  inv d -> is_int n -> n < dotlen d ->
  growdot n d = Ret ((None, Some errFillOverflow), d).
Proof.
  intros I N Hlt. pose proof I as [W [[S0 SP] PB]].
  pose proof (inv_pos_int I) as PI. pose proof (dotlen_inv I) as DL.
  unfold growdot, bind.
  assert (K : is_int (int_sub n (dotlen d))) by apply wrap_is_int.
  destruct (@fill_cases d (int_sub n (dotlen d)) W ltac:(lia) K)
    as [[_ E] | (Hk & Hs & _)].
  - rewrite E. reflexivity.
  - exfalso. unfold int_sub in *. unfold is_int, minInt, maxInt in *.
    destruct (Z_lt_le_dec (n - dotlen d) (- 2 ^ 63)) as [Lo|Lo].
    + rewrite wrap_below in Hs by (unfold minInt; lia). lia.
    + rewrite wrap_id in Hk by (unfold is_int, minInt, maxInt; lia). lia.
Qed.

Lemma growdot_cannot_shrink_witness :
  inv sample_window /\ is_int 1 /\ 1 < dotlen sample_window /\
  growdot 1 sample_window = Ret ((None, Some errFillOverflow), sample_window).
Proof.
  assert (N : is_int 1) by (unfold is_int, minInt, maxInt; lia).
  assert (L : 1 < dotlen sample_window) by (vm_compute; reflexivity).
  split; [exact sample_window_inv|]. split; [exact N|]. split; [exact L|].
  exact (@growdot_cannot_shrink sample_window 1 sample_window_inv N L).
Defined.

(** X5. growdot is idempotent: once growdot(n) has succeeded, growdot(n)
    again returns the same span and changes nothing. *)
Theorem growdot_idempotent (d d' : Decoder) (n : Z) (sl : slice) :
  inv d -> is_int n -> growdot n d = Ret ((Some sl, None), d') ->
  growdot n d' = Ret ((Some sl, None), d').
Proof.
  intros I N E.
  destruct (growdot_success_view I N E) as (I' & S' & P' & _ & Hn & _ & D' & _).
  pose proof I' as [W' [[S0 SP] PB]].
  pose proof (inv_pos_int I') as PI. pose proof (dotlen_inv I') as DL.
  assert (K0 : int_sub n (dotlen d') = 0).
  { unfold int_sub. rewrite DL. replace (n - (pos d' - start d')) with 0 by lia.
    reflexivity. }
  unfold growdot, bind. rewrite K0.
  destruct (@fill_cases d' 0 W' ltac:(lia) ltac:(unfold is_int, minInt, maxInt; lia))
    as [[Hc _] | (_ & _ & b' & sl' & e & HP & Ef & _ & _)]; [lia|].
  rewrite Z.add_0_r in HP.
  destruct (@Peek_spec (br d') (pos d') W' ltac:(lia)) as (b2 & sl2 & e2 & HP2 & _ & _ & Same).
  rewrite HP in HP2. injection HP2 as <- <- <-.
  destruct (Same PB) as [-> ->].
  rewrite Ef, set_br_same. cbn [obind].
  unfold advance. rewrite K0.
  destruct (buflen d' <? 0) eqn:Eb.
  { apply Z.ltb_lt in Eb. rewrite buflen_inv in Eb by (exact W' || lia). lia. }
  cbn [obind]. unfold int_add. rewrite Z.add_0_r, wrap_id
    by (unfold is_int, minInt, maxInt in *; lia).
  replace (set_pos d' (pos d')) with d' by (now destruct d').
  rewrite D'. reflexivity.
Qed.

Lemma growdot_idempotent_witness :
  inv sample_marked /\ is_int 4 /\
  growdot 4 sample_marked
  = Ret ((Some {| off := 3; len := 4 |}, None), after (growdot 4) sample_marked) /\
  growdot 4 (after (growdot 4) sample_marked)
  = Ret ((Some {| off := 3; len := 4 |}, None), after (growdot 4) sample_marked).
Proof.
  assert (N : is_int 4) by (unfold is_int, minInt, maxInt; lia).
  assert (E : growdot 4 sample_marked
              = Ret ((Some {| off := 3; len := 4 |}, None),
                     after (growdot 4) sample_marked))
    by (vm_compute; reflexivity).
  split; [exact sample_marked_inv|]. split; [exact N|]. split; [exact E|].
  exact (@growdot_idempotent sample_marked _ 4 _ sample_marked_inv N E).
Defined.




(** X7. A successful growdot(n) stayed within what is there: n is at least
    the length the dot had, and the n bytes from start lie within the bytes
    of the stream and within the buffer's array. *)
Theorem growdot_success_bounds (d d' : Decoder) (n : Z) (sl : slice) :
  inv d -> is_int n -> growdot n d = Ret ((Some sl, None), d') ->
  dotlen d <= n /\
  start d + n <= Z.of_nat (length (stream d)) /\
  start d + n <= Z.of_nat (length (bufio.buf (br d))) /\
  buflen d' = bufio.Buffered (br d') - (start d + n).
Proof.
  intros I N E.
  destruct (growdot_success_view I N E) as (I' & S' & P' & Hle & Hn & St & _).
  destruct (growdot_spec I N) as (res & d1 & E1 & _ & _ & G & _).
  rewrite E in E1. injection E1 as _ <-.
  pose proof I' as [W' [_ PB']]. pose proof (inv_pos_int I') as PI'.
  split; [rewrite (dotlen_inv I); lia|].
  split.
  - rewrite <- St. unfold stream, bufio.pending. rewrite length_app.
    rewrite (Buffered_length W') in PB'. lia.
  - destruct G as (L & _). rewrite <- L. pose proof W' as [Wi _].
    split; [unfold bufio.Buffered in PB'; lia|].
    rewrite buflen_inv; [lia | exact W' | lia].
Qed.

Lemma growdot_success_bounds_witness :
  inv sample_marked /\ is_int 4 /\
  growdot 4 sample_marked
  = Ret ((Some {| off := 3; len := 4 |}, None), after (growdot 4) sample_marked) /\
  dotlen sample_marked <= 4 /\
  start sample_marked + 4 <= Z.of_nat (length (stream sample_marked)) /\
  start sample_marked + 4 <= Z.of_nat (length (bufio.buf (br sample_marked))) /\
  buflen (after (growdot 4) sample_marked)
  = bufio.Buffered (br (after (growdot 4) sample_marked)) - (start sample_marked + 4).
Proof.
  assert (N : is_int 4) by (unfold is_int, minInt, maxInt; lia).
  assert (E : growdot 4 sample_marked
              = Ret ((Some {| off := 3; len := 4 |}, None),
                     after (growdot 4) sample_marked))
    by (vm_compute; reflexivity).
  split; [exact sample_marked_inv|]. split; [exact N|]. split; [exact E|].
  exact (@growdot_success_bounds sample_marked _ 4 _ sample_marked_inv N E).
Defined.

(** X8. Frames follow each other without gap or overlap: after growdot(n)
    and mark, a successful growdot(m) hands out the m bytes of the stream
    that come right after the n bytes of the first span. *)
Theorem consecutive_frames (d d1 d2 : Decoder) (n m : Z) (sl1 sl2 : slice) :
  inv d -> is_int n -> is_int m ->
  growdot n d = Ret ((Some sl1, None), d1) ->
  (mark ;; growdot m) d1 = Ret ((Some sl2, None), d2) ->
  bufio.view (br d1) sl1
  = firstn (Z.to_nat n) (skipn (Z.to_nat (start d)) (stream d)) /\
  bufio.view (br d2) sl2
  = firstn (Z.to_nat m) (skipn (Z.to_nat (start d + n)) (stream d)) /\
  start d2 = start d + n /\ pos d2 = start d + n + m.
Proof.
  intros I N M E1 E2.
  destruct (growdot_success_view I N E1) as (I1 & S1 & P1 & _ & Hn & St1 & _ & _ & V1).
  split; [exact V1|].
  unfold bind, mark in E2. cbn [obind] in E2.
  assert (Im : inv (set_start d1 (pos d1))).
  { destruct I1 as [W1 [[A B] C]]. split; [exact W1|].
    unfold cursor_ok. cbn [start pos br set_start]. lia. }
  destruct (growdot_success_view Im M E2) as (_ & S2 & P2 & _ & _ & St2 & _ & _ & V2).
  cbn [start set_start] in S2, P2, V2.
  unfold stream in St2, V2. cbn [br set_start] in St2, V2.
  fold (stream d1) in St2, V2. rewrite St1, P1 in V2.
  split; [exact V2|]. split; lia.
Qed.

Lemma consecutive_frames_witness :
  inv sample_decoder /\ is_int 3 /\ is_int 4 /\
  growdot 3 sample_decoder
  = Ret ((Some {| off := 0; len := 3 |}, None), after (growdot 3) sample_decoder) /\
  (mark ;; growdot 4) (after (growdot 3) sample_decoder)
  = Ret ((Some {| off := 3; len := 4 |}, None),
         after (mark ;; growdot 4) (after (growdot 3) sample_decoder)) /\
  bufio.view (br (after (growdot 3) sample_decoder)) {| off := 0; len := 3 |}
  = firstn (Z.to_nat 3) (skipn (Z.to_nat (start sample_decoder)) (stream sample_decoder)) /\
  bufio.view (br (after (mark ;; growdot 4) (after (growdot 3) sample_decoder)))
             {| off := 3; len := 4 |}
  = firstn (Z.to_nat 4) (skipn (Z.to_nat (start sample_decoder + 3)) (stream sample_decoder)) /\
  start (after (mark ;; growdot 4) (after (growdot 3) sample_decoder))
  = start sample_decoder + 3 /\
  pos (after (mark ;; growdot 4) (after (growdot 3) sample_decoder))
  = start sample_decoder + 3 + 4.
Proof.
  assert (I : inv sample_decoder) by by_computation.
  assert (N : is_int 3) by (unfold is_int, minInt, maxInt; lia).
  assert (M : is_int 4) by (unfold is_int, minInt, maxInt; lia).
  assert (E1 : growdot 3 sample_decoder
               = Ret ((Some {| off := 0; len := 3 |}, None),
                      after (growdot 3) sample_decoder))
    by (vm_compute; reflexivity).
  assert (E2 : (mark ;; growdot 4) (after (growdot 3) sample_decoder)
               = Ret ((Some {| off := 3; len := 4 |}, None),
                      after (mark ;; growdot 4) (after (growdot 3) sample_decoder)))
    by (vm_compute; reflexivity).
  split; [exact I|]. split; [exact N|]. split; [exact M|].
  split; [exact E1|]. split; [exact E2|].
  exact (@consecutive_frames sample_decoder _ _ 3 4 _ _ I N M E1 E2).
Defined.

(** ** growdot over a steady device *)

Lemma io_Read_steady (s s' : io.Reader) (cap : nat) (data : list byte)
      (e : option error) :
  io.steady s -> (0 < cap)%nat -> io.Read s cap = (s', data, e) ->
  io.steady s' /\ io.final s' = io.final s /\
  match e with
  | Some e => e = io.final s /\ io.chunks s' = [] /\ data = []
  | None => data <> []
  end.
Proof.
  unfold io.Read, io.steady. destruct s as [cs fin]. cbn [io.chunks io.final].
  intros St Hcap. destruct cs as [|c rest]; intros [= <- <- <-].
  - cbn [io.chunks io.final]. repeat split; constructor.
  - inversion St as [|? ? Hc Hrest]; subst. cbn [io.chunks io.final].
    split; [|split; [reflexivity|]].
    + destruct (skipn cap c) eqn:Hs; [exact Hrest|].
      constructor; [discriminate | exact Hrest].
    + destruct c; [congruence|]. destruct cap; [lia | discriminate].
Qed.

Lemma fill_reads_settled (i : nat) (b : bufio.Reader) :
  (bufio.w b < length (bufio.buf b))%nat ->
  io.steady (bufio.rd b) -> bufio.err b = None ->
  bufio.settled (bufio.fill_reads (S i) b) /\
  io.final (bufio.rd (bufio.fill_reads (S i) b)) = io.final (bufio.rd b).
Proof.
  intros Hroom St He. cbn [bufio.fill_reads].
  destruct (io.Read (bufio.rd b) (length (bufio.buf b) - bufio.w b))
    as [[src data] e] eqn:HR.
  assert (Hcap : (0 < length (bufio.buf b) - bufio.w b)%nat) by lia.
  destruct (io_Read_steady St Hcap HR) as (St' & Fin & Hres).
  destruct e as [e|].
  - destruct Hres as (-> & Hch & _).
    unfold bufio.settled. cbn [bufio.rd bufio.err].
    split; [|exact Fin]. split; [exact St'|].
    right. split; [now rewrite Fin | exact Hch].
  - destruct data as [|x data]; [congruence|]. cbn [length Nat.ltb Nat.leb].
    unfold bufio.settled. cbn [bufio.rd bufio.err].
    split; [|exact Fin]. split; [exact St' | left; exact He].
Qed.

Lemma Ret_inj (A : Type) (x y : A) : Ret x = Ret y -> x = y.
Proof. congruence. Qed.

Lemma fill_settled (b b' : bufio.Reader) :
  io.steady (bufio.rd b) -> bufio.err b = None ->
  bufio.fill b = Ret b' ->
  bufio.settled b' /\ io.final (bufio.rd b') = io.final (bufio.rd b).
Proof.
  intros St He. unfold bufio.fill.
  set (b1 := if (0 <? bufio.r b)%nat then _ else b).
  assert (H1 : bufio.rd b1 = bufio.rd b /\ bufio.err b1 = bufio.err b).
  { unfold b1. destruct (0 <? bufio.r b)%nat; split; reflexivity. }
  destruct H1 as [R1 E1].
  destruct (length (bufio.buf b1) <=? bufio.w b1)%nat eqn:Hp; [discriminate|].
  apply Nat.leb_gt in Hp. intros E. apply Ret_inj in E. subst b'.
  assert (St1 : io.steady (bufio.rd b1)) by (rewrite R1; exact St).
  assert (He1 : bufio.err b1 = None) by congruence.
  destruct (@fill_reads_settled 99 b1 Hp St1 He1) as [J F].
  split; [exact J | rewrite <- R1; exact F].
Qed.

Lemma Peek_loop_settled (n : Z) (fuel : nat) :
  forall b b', bufio.wf b -> bufio.settled b ->
  bufio.Peek_loop fuel b n = Ret b' ->
  bufio.settled b' /\ io.final (bufio.rd b') = io.final (bufio.rd b).
Proof.
  induction fuel as [|fuel IH]; intros b b' W J; cbn [bufio.Peek_loop].
  - destruct ((bufio.Buffered b <? n)
              && (bufio.Buffered b <? Z.of_nat (length (bufio.buf b)))
              && match bufio.err b with None => true | Some _ => false end);
      [discriminate|]. intros [= <-]. split; [exact J | reflexivity].
  - destruct (bufio.Buffered b <? n) eqn:H1; cbn [andb];
      [|intros [= <-]; split; [exact J | reflexivity]].
    destruct (bufio.Buffered b <? Z.of_nat (length (bufio.buf b))) eqn:H2; cbn [andb];
      [|intros [= <-]; split; [exact J | reflexivity]].
    destruct (bufio.err b) eqn:H3; [intros [= <-]; split; [exact J | reflexivity]|].
    apply Z.ltb_lt in H2.
    destruct (fill_spec W H2) as (b1 & F & G1 & _).
    rewrite F. cbn [obind]. intros E.
    destruct (@fill_settled b b1 (proj1 J) H3 F) as [J1 F1].
    destruct (IH b1 b' ltac:(apply G1) J1 E) as [J' F'].
    split; [exact J' | congruence].
Qed.

(** Peek over a steady device: it succeeds when the bytes are there, and ends
    in the device's error, with all the input buffered, when they are not. *)
Lemma Peek_steady (b : bufio.Reader) (n : Z) :
  bufio.wf b -> io.steady (bufio.rd b) -> bufio.err b = None ->
  0 <= n <= Z.of_nat (length (bufio.buf b)) ->
  exists b' sl e,
    bufio.Peek b n = Ret (b', sl, e) /\ bufio.grows b b' /\
    (n <= Z.of_nat (length (bufio.pending b)) -> e = None) /\
    (Z.of_nat (length (bufio.pending b)) < n ->
     e = Some (io.final (bufio.rd b)) /\
     bufio.Buffered b' = Z.of_nat (length (bufio.pending b))).
Proof.
  intros W St He Hn. unfold bufio.Peek.
  destruct (n <? 0) eqn:Hneg; [apply Z.ltb_lt in Hneg; lia|].
  destruct (@Peek_loop_spec n (S (length (bufio.buf b))) b W) as (b1 & E & G & X & _);
    [left; lia|].
  destruct (@Peek_loop_settled n _ b b1 W (conj St (or_introl He)) E) as [[St1 J1] F1].
  rewrite E. cbn [obind].
  pose proof G as (L & W1 & P & _).
  assert (Hpend : bufio.Buffered b1 <= Z.of_nat (length (bufio.pending b))).
  { rewrite <- P. unfold bufio.pending. rewrite length_app, (Buffered_length W1). lia. }
  assert (Hend : bufio.err b1 <> None ->
                 bufio.err b1 = Some (io.final (bufio.rd b)) /\
                 bufio.Buffered b1 = Z.of_nat (length (bufio.pending b))).
  { intros Hne. destruct J1 as [J1|[J1 J2]]; [congruence|].
    split; [congruence|]. rewrite <- P. unfold bufio.pending, io.remaining.
    rewrite J2. cbn [concat]. rewrite app_nil_r. now apply Buffered_length. }
  rewrite L.
  destruct (Z.of_nat (length (bufio.buf b)) <? n) eqn:Hbig;
    [apply Z.ltb_lt in Hbig; lia|].
  destruct (bufio.Buffered b1 <? n) eqn:Hshort.
  - apply Z.ltb_lt in Hshort. cbn [bufio.readErr].
    assert (Hne : bufio.err b1 <> None).
    { destruct X as [X|[X|X]]; [lia | lia | exact X]. }
    destruct (Hend Hne) as [Ee Eb]. rewrite Ee.
    do 3 eexists. split; [reflexivity|]. split.
    { destruct G as (L' & Wf & P' & x & Ex). repeat split; try apply Wf; auto.
      exists x. exact Ex. }
    split; [intros; lia|]. intros _. split; [reflexivity | exact Eb].
  - apply Z.ltb_ge in Hshort.
    do 3 eexists. split; [reflexivity|]. split; [exact G|].
    split; [reflexivity | intros; lia].
Qed.



Lemma steady_marked_inv : inv steady_marked.
Proof. by_computation. Defined.

Lemma steady_marked_steady : io.steady (r steady_marked).
Proof.
  unfold io.steady. vm_compute. repeat (constructor; [discriminate|]). constructor.
Defined.


(** X10. Over a steady device with no error stored in the reader, when the
    stream ends before the n bytes from start are there (and they would fit
    the buffer), growdot(n) returns the device's own final error, io.EOF for
    a plain end of input, as it is: the cursor is unchanged and all that was
    left of the input is now buffered. *)
Theorem growdot_truncated_stream (d : Decoder) (n : Z) :
  inv d -> io.steady (r d) -> bufio.err (br d) = None ->
  dotlen d <= n ->
  Z.of_nat (length (stream d)) < start d + n ->
  start d + n <= Z.of_nat (length (bufio.buf (br d))) ->
  exists d',
    growdot n d = Ret ((None, Some (io.final (r d))), d') /\
    start d' = start d /\ pos d' = pos d /\ stream d' = stream d /\
    bufio.Buffered (br d') = Z.of_nat (length (stream d)).
Proof.
  intros I St He Hge Hshort Hfit. pose proof I as [W [[S0 SP] PB]].
  pose proof (inv_pos_int I) as PI. pose proof (dotlen_inv I) as DL.
  pose proof W as [_ Wm].
  assert (K : int_sub n (dotlen d) = n - dotlen d).
  { unfold int_sub. apply wrap_id. unfold is_int, minInt, maxInt in *. lia. }
  unfold growdot, bind. rewrite K.
  destruct (@fill_cases d (n - dotlen d) W ltac:(lia)
              ltac:(unfold is_int, minInt, maxInt in *; lia))
    as [[Hc _] | (_ & _ & b' & sl & e & HP & Ef & G & _)]; [lia|].
  destruct (@Peek_steady (br d) (pos d + (n - dotlen d)) W St He ltac:(lia))
    as (b2 & sl2 & e2 & HP2 & _ & _ & Hend).
  rewrite HP in HP2. apply Ret_inj in HP2. injection HP2 as <- <- <-.
  unfold stream in Hshort. destruct (Hend ltac:(lia)) as [-> Hall].
  rewrite Ef. cbn [obind ret].
  eexists. split; [reflexivity|]. cbn [start pos br set_br].
  split; [reflexivity|]. split; [reflexivity|].
  split; [unfold stream; cbn [br set_br]; apply G | exact Hall].
Qed.

Lemma growdot_truncated_stream_witness :
  inv steady_marked /\ io.steady (r steady_marked) /\
  bufio.err (br steady_marked) = None /\
  dotlen steady_marked <= 10 /\
  Z.of_nat (length (stream steady_marked)) < start steady_marked + 10 /\
  start steady_marked + 10 <= Z.of_nat (length (bufio.buf (br steady_marked))) /\
  exists d',
    growdot 10 steady_marked = Ret ((None, Some (io.final (r steady_marked))), d') /\
    start d' = start steady_marked /\ pos d' = pos steady_marked /\
    stream d' = stream steady_marked /\
    bufio.Buffered (br d') = Z.of_nat (length (stream steady_marked)).
Proof.
  assert (He : bufio.err (br steady_marked) = None) by reflexivity.
  assert (A : dotlen steady_marked <= 10) by (vm_compute; discriminate).
  assert (B : Z.of_nat (length (stream steady_marked)) < start steady_marked + 10)
    by (vm_compute; reflexivity).
  assert (C : start steady_marked + 10
              <= Z.of_nat (length (bufio.buf (br steady_marked))))
    by (vm_compute; discriminate).
  split; [exact steady_marked_inv|]. split; [exact steady_marked_steady|].
  split; [exact He|]. split; [exact A|]. split; [exact B|]. split; [exact C|].
  exact (@growdot_truncated_stream steady_marked 10 steady_marked_inv
           steady_marked_steady He A B C).
Defined.

(** ** The steps of a cycle, further *)

Lemma dropMessages_from_short (ms : list Msg) :
  forall d, bufio.wf (br d) ->
  Forall (fun m => 0 <= nbytes m) ms ->
  Z.of_nat (length (stream d)) < batch_length ms ->
  exists d' e, dropMessages_from ms d = Ret (tt, d') /\ err d' = Some e.
Proof.
  induction ms as [|m ms IH]; intros d W Hnn Hshort.
  - cbn in Hshort. lia.
  - inversion Hnn as [|? ? Hm Hms]; subst.
    cbn [batch_length fold_right] in Hshort. fold (batch_length ms) in Hshort.
    cbn [dropMessages_from].
    destruct (@discard_spec (br d) (nbytes m) W) as (b' & e & Ed & W' & _ & _ & Hp & _).
    rewrite Ed. cbn [obind]. destruct e as [e|].
    + do 2 eexists. split; reflexivity.
    + destruct (Hp Hm eq_refl) as [P' Pl].
      apply (IH (set_br d b')); [exact W' | exact Hms|].
      unfold stream in *. cbn [br set_br]. rewrite P', length_skipn. lia.
Qed.

(** X11. dropMessages never passes over a short stream in silence: when the
    messages of the batch (of lengths that are not negative) add up to more
    bytes than the stream still holds, it returns with an error in the error
    field and the batch emptied. *)
Theorem dropMessages_short_stream (d : Decoder) :
  bufio.wf (br d) ->
  Forall (fun m => 0 <= nbytes m) (msg d) ->
  Z.of_nat (length (stream d)) < batch_length (msg d) ->
  exists d' e, dropMessages d = Ret (tt, d') /\ err d' = Some e /\ msg d' = [].
Proof.
  intros W Hnn Hshort.
  destruct (@dropMessages_from_short (msg d) d W Hnn Hshort) as (d' & e & E & He).
  exists (set_msg d' []), e. unfold dropMessages, bind. rewrite E.
  repeat split. exact He.
Qed.

Lemma dropMessages_short_stream_witness :
  bufio.wf (br sample_truncated) /\
  Forall (fun m => 0 <= nbytes m) (msg sample_truncated) /\
  Z.of_nat (length (stream sample_truncated)) < batch_length (msg sample_truncated) /\
  exists d' e, dropMessages sample_truncated = Ret (tt, d') /\
               err d' = Some e /\ msg d' = [].
Proof.
  assert (W : bufio.wf (br sample_truncated)) by by_computation.
  assert (F : Forall (fun m => 0 <= nbytes m) (msg sample_truncated)).
  { repeat constructor; cbn; lia. }
  assert (S : Z.of_nat (length (stream sample_truncated))
              < batch_length (msg sample_truncated)) by (vm_compute; reflexivity).
  split; [exact W|]. split; [exact F|]. split; [exact S|].
  exact (@dropMessages_short_stream sample_truncated W F S).
Defined.

Lemma set_r_same (d : Decoder) : set_r d (r d) = d.
Proof. destruct d as [? [? ? ? ? ?] ? ? ? ?]. reflexivity. Qed.

Lemma drain_batch_no_readers (ms : list Msg) (src : io.Reader) :
  Forall (fun m => drain m = None) ms -> drain_batch ms src = (src, None).
Proof.
  induction 1 as [|m ms Hm _ IH]; [reflexivity|].
  cbn [drain_batch]. now rewrite Hm.
Qed.



(** X13. A cycle whose opening steps leave an error does not show the old
    batch again and does not run the fetch: Next returns false whatever the
    parsing stage is, with the batch empty and the cursor at zero, and so
    does the call after it, with the same error. *)
Theorem failed_opening_abandons_batch
        (fetchMessages : M (option error)) (d : Decoder) (e : error) :
  bufio.wf (br d) ->
  err (after (exhaustReaders ;; dropMessages ;; resetdot) d) = Some e ->
  exists d1 d2,
    Next fetchMessages d = Ret (false, d1) /\
    d1 = after (exhaustReaders ;; dropMessages ;; resetdot) d /\
    Messages d1 = [] /\ start d1 = 0 /\ pos d1 = 0 /\ err d1 = Some e /\
    Next fetchMessages d1 = Ret (false, d2) /\
    Messages d2 = [] /\ err d2 = Some e.
Proof.
  intros W.
  destruct (@opening_steps_spec d W) as (d1 & d2 & E1 & _ & E3 & _).
  unfold after, Next, bind. rewrite E1. cbn [obind]. rewrite E3. cbn [obind].
  unfold resetdot. cbn [obind].
  set (d3 := set_pos (set_start (set_msg d2 []) 0) 0). intros He. rewrite He.
  destruct (@Next_keeps_error fetchMessages d3 e He eq_refl) as (d4 & E4 & He4 & Hm4).
  exists d3, d4. unfold Next, bind in E4.
  repeat split; assumption.
Qed.

Lemma failed_opening_abandons_batch_witness :
  bufio.wf (br sample_stale) /\
  err (after (exhaustReaders ;; dropMessages ;; resetdot) sample_stale)
  = Some (ErrDevice "connection reset") /\
  exists d1 d2,
    Next (fetch_frame 3) sample_stale = Ret (false, d1) /\
    d1 = after (exhaustReaders ;; dropMessages ;; resetdot) sample_stale /\
    Messages d1 = [] /\ start d1 = 0 /\ pos d1 = 0 /\
    err d1 = Some (ErrDevice "connection reset") /\
    Next (fetch_frame 3) d1 = Ret (false, d2) /\
    Messages d2 = [] /\ err d2 = Some (ErrDevice "connection reset").
Proof.
  assert (W : bufio.wf (br sample_stale)) by by_computation.
  assert (E : err (after (exhaustReaders ;; dropMessages ;; resetdot) sample_stale)
              = Some (ErrDevice "connection reset")) by (vm_compute; reflexivity).
  split; [exact W|]. split; [exact E|].
  exact (@failed_opening_abandons_batch (fetch_frame 3) sample_stale _ W E).
Defined.

Lemma dropMessages_from_nonpositive (ms : list Msg) :
  forall d, bufio.wf (br d) -> Forall (fun m => nbytes m <= 0) ms ->
  dropMessages_from ms d = Ret (tt, d).
Proof.
  induction ms as [|m ms IH]; intros d W Hall; [reflexivity|].
  inversion Hall as [|? ? Hm Hms]; subst. cbn [dropMessages_from].
  destruct (@discard_spec (br d) (nbytes m) W) as (b' & e & Ed & _ & _ & Hneg & _).
  destruct (Hneg Hm) as [-> ->]. rewrite Ed. cbn [obind].
  rewrite set_br_same. now apply IH.
Qed.

(** X14. A message whose nbytes() is zero or negative makes dropMessages
    discard nothing and is no error: a batch of such messages is emptied
    with the reader, the stream and the error field untouched. *)
Theorem dropMessages_ignores_nonpositive (d : Decoder) :
  bufio.wf (br d) -> Forall (fun m => nbytes m <= 0) (msg d) ->
  dropMessages d = Ret (tt, set_msg d []) /\
  stream (set_msg d []) = stream d /\ err (set_msg d []) = err d.
Proof.
  intros W Hall. unfold dropMessages, bind.
  rewrite (@dropMessages_from_nonpositive (msg d) d W Hall). repeat split.
Qed.

Lemma dropMessages_ignores_nonpositive_witness :
  bufio.wf (br (set_msg sample_window [plain_msg {| off := 1; len := 0 |}])) /\
  Forall (fun m => nbytes m <= 0)
         (msg (set_msg sample_window [plain_msg {| off := 1; len := 0 |}])) /\
  dropMessages (set_msg sample_window [plain_msg {| off := 1; len := 0 |}])
  = Ret (tt, set_msg (set_msg sample_window [plain_msg {| off := 1; len := 0 |}]) []) /\
  stream (set_msg (set_msg sample_window [plain_msg {| off := 1; len := 0 |}]) [])
  = stream (set_msg sample_window [plain_msg {| off := 1; len := 0 |}]) /\
  err (set_msg (set_msg sample_window [plain_msg {| off := 1; len := 0 |}]) [])
  = err (set_msg sample_window [plain_msg {| off := 1; len := 0 |}]).
Proof.
  assert (W : bufio.wf (br (set_msg sample_window [plain_msg {| off := 1; len := 0 |}])))
    by by_computation.
  assert (F : Forall (fun m => nbytes m <= 0)
                (msg (set_msg sample_window [plain_msg {| off := 1; len := 0 |}]))).
  { repeat constructor; cbn; lia. }
  split; [exact W|]. split; [exact F|].
  exact (@dropMessages_ignores_nonpositive _ W F).
Defined.

(** X15. The next cycle fetches from the next frame: for a decoder without a
    stored error whose batch holds no streamed bodies, has lengths that are
    not negative and is covered by what the reader can supply, the three
    opening steps of Next return a decoder with the cursor at zero, the
    batch empty, no error, the invariant in force and the stream moved on by
    exactly the length of the batch; and Next is the fetch run on that
    decoder, true exactly when the fetch reports no error. *)
Theorem Next_fetches_from_next_frame (fetchMessages : M (option error)) (d : Decoder) :
  bufio.wf (br d) -> err d = None ->
  Forall (fun m => drain m = None) (msg d) ->
  Forall (fun m => 0 <= nbytes m) (msg d) ->
  bufio.supplies (br d) (batch_length (msg d)) ->
  exists d3,
    (exhaustReaders ;; dropMessages ;; resetdot) d = Ret (tt, d3) /\
    stream d3 = skipn (Z.to_nat (batch_length (msg d))) (stream d) /\
    start d3 = 0 /\ pos d3 = 0 /\ msg d3 = [] /\ err d3 = None /\ inv d3 /\
    Next fetchMessages d
    = obind (fetchMessages d3) (fun '(e, d4) =>
        Ret (match e with Some _ => false | None => true end, d4)).
Proof.
  intros W He Hnr Hnn S.
  assert (E1 : exhaustReaders d = Ret (tt, d)).
  { unfold exhaustReaders. rewrite exhaustReaders_from_spec.
    rewrite (drain_batch_no_readers _ Hnr). cbn [fst snd]. now rewrite set_r_same. }
  destruct (@dropMessages_from_supplied (msg d) d (batch_length (msg d)) W Hnn
              ltac:(lia) S)
    as (d2 & E2 & W2 & He2 & _ & _ & _ & Hstream & _).
  exists (set_pos (set_start (set_msg d2 []) 0) 0).
  assert (Hop : (exhaustReaders ;; dropMessages ;; resetdot) d
                = Ret (tt, set_pos (set_start (set_msg d2 []) 0) 0)).
  { unfold bind, dropMessages, bind, resetdot. rewrite E1. cbn [obind].
    rewrite E2. reflexivity. }
  split; [exact Hop|]. split; [exact Hstream|].
  split; [reflexivity|]. split; [reflexivity|]. split; [reflexivity|].
  split; [cbn [err set_pos set_start set_msg]; congruence|].
  split.
  { split; [exact W2|]. unfold cursor_ok, bufio.Buffered.
    cbn [start pos br set_pos set_start set_msg]. lia. }
  unfold Next, bind, dropMessages, bind, resetdot. rewrite E1. cbn [obind].
  rewrite E2. cbn [obind err set_pos set_start set_msg]. rewrite He2, He.
  destruct (fetchMessages _) as [[[e|] d4]| |]; reflexivity.
Qed.

Lemma Next_fetches_from_next_frame_witness :
  bufio.wf (br sample_batch) /\ err sample_batch = None /\
  Forall (fun m => drain m = None) (msg sample_batch) /\
  Forall (fun m => 0 <= nbytes m) (msg sample_batch) /\
  bufio.supplies (br sample_batch) (batch_length (msg sample_batch)) /\
  exists d3,
    (exhaustReaders ;; dropMessages ;; resetdot) sample_batch = Ret (tt, d3) /\
    stream d3 = skipn (Z.to_nat (batch_length (msg sample_batch))) (stream sample_batch) /\
    start d3 = 0 /\ pos d3 = 0 /\ msg d3 = [] /\ err d3 = None /\ inv d3 /\
    Next fetch_nothing sample_batch
    = obind (fetch_nothing d3) (fun '(e, d4) =>
        Ret (match e with Some _ => false | None => true end, d4)).
Proof.
  assert (W : bufio.wf (br sample_batch)) by by_computation.
  assert (He : err sample_batch = None) by reflexivity.
  assert (Hnr : Forall (fun m => drain m = None) (msg sample_batch))
    by (repeat constructor).
  assert (Hnn : Forall (fun m => 0 <= nbytes m) (msg sample_batch)).
  { repeat constructor; cbn; lia. }
  assert (S : bufio.supplies (br sample_batch) (batch_length (msg sample_batch))).
  { left. vm_compute. discriminate. }
  split; [exact W|]. split; [exact He|]. split; [exact Hnr|]. split; [exact Hnn|].
  split; [exact S|].
  exact (@Next_fetches_from_next_frame fetch_nothing sample_batch W He Hnr Hnn S).
Defined.

(** ** Construction and Reset, further *)

(** X16. Reset starts afresh on the new source: nothing of the old input is
    buffered (the stream is what the new source delivers), the invariant
    holds, Err reports nil, and the next cycle neither drains nor discards
    anything on account of the old batch: Next is the fetch run on the
    decoder as Reset left it. *)
Theorem Reset_starts_afresh (fetchMessages : M (option error))
        (d : Decoder) (src : io.Reader) :
  Z.of_nat (length (bufio.buf (br d))) <= maxInt ->
  inv (Reset d src) /\
  stream (Reset d src) = io.remaining src /\
  Err (Reset d src) = None /\
  Next fetchMessages (Reset d src)
  = obind (fetchMessages (Reset d src)) (fun '(e, d4) =>
      Ret (match e with Some _ => false | None => true end, d4)).
Proof.
  intros Hm. split; [|split; [|split]].
  - unfold inv, bufio.wf, cursor_ok, bufio.Buffered, Reset, bufio.Reset.
    cbn [br start pos bufio.buf bufio.r bufio.w]. lia.
  - reflexivity.
  - reflexivity.
  - unfold Next, bind, exhaustReaders, dropMessages, bind, resetdot, Reset.
    cbn [msg exhaustReaders_from dropMessages_from ret obind err set_pos set_start
         set_msg start pos br MaxSize].
    destruct (fetchMessages _) as [[[e|] d4]| |]; reflexivity.
Qed.

Lemma Reset_starts_afresh_witness :
  Z.of_nat (length (bufio.buf (br sample_stale))) <= maxInt /\
  inv (Reset sample_stale steady_input) /\
  stream (Reset sample_stale steady_input) = io.remaining steady_input /\
  Err (Reset sample_stale steady_input) = None /\
  Next fetch_nothing (Reset sample_stale steady_input)
  = obind (fetch_nothing (Reset sample_stale steady_input)) (fun '(e, d4) =>
      Ret (match e with Some _ => false | None => true end, d4)).
Proof.
  assert (H : Z.of_nat (length (bufio.buf (br sample_stale))) <= maxInt)
    by (vm_compute; discriminate).
  split; [exact H|].
  exact (@Reset_starts_afresh fetch_nothing sample_stale steady_input H).
Defined.



(** ** Work within the buffer, and the reach of discard *)

(** X18. growdot does no I/O for bytes that are buffered already: when the
    n bytes from start lie within the buffered bytes (and n is not below the
    dot's length), growdot(n) succeeds and only moves pos to start + n; the
    reader, device included, is exactly as before. *)
Theorem growdot_within_buffered (d : Decoder) (n : Z) :
  inv d -> dotlen d <= n -> start d + n <= bufio.Buffered (br d) ->
  growdot n d
  = Ret ((Some {| off := bufio.r (br d) + Z.to_nat (start d); len := Z.to_nat n |},
          None),
         set_pos d (start d + n)).
Proof.
  intros I Hge Hin. pose proof I as [W [[S0 SP] PB]].
  pose proof (inv_pos_int I) as PI. pose proof (dotlen_inv I) as DL.
  pose proof (Buffered_bounds W) as BB.
  assert (K : int_sub n (dotlen d) = n - dotlen d).
  { unfold int_sub. apply wrap_id. unfold is_int, minInt, maxInt in *. lia. }
  unfold growdot, bind. rewrite K.
  destruct (@fill_cases d (n - dotlen d) W ltac:(lia)
              ltac:(unfold is_int, minInt, maxInt in *; lia))
    as [[Hc _] | (_ & _ & b' & sl & e & HP & Ef & _ & _)]; [lia|].
  destruct (@Peek_spec (br d) (pos d + (n - dotlen d)) W ltac:(lia))
    as (b2 & sl2 & e2 & HP2 & _ & _ & Same).
  rewrite HP in HP2. apply Ret_inj in HP2. injection HP2 as <- <- <-.
  destruct (Same ltac:(lia)) as [-> ->].
  rewrite Ef, set_br_same. cbn [obind].
  rewrite K. unfold advance.
  rewrite buflen_inv by (exact W || lia).
  destruct (bufio.Buffered (br d) - pos d <? n - dotlen d) eqn:Ea;
    [apply Z.ltb_lt in Ea; lia|].
  cbn [obind]. unfold int_add. rewrite wrap_id
    by (unfold is_int, minInt, maxInt in *; lia).
  replace (pos d + (n - dotlen d)) with (start d + n) by lia.
  assert (I2 : inv (set_pos d (start d + n))).
  { split; [exact W | unfold cursor_ok; cbn [start pos br set_pos]; lia]. }
  rewrite (dot_inv I2). cbn [obind ret br start pos set_pos].
  replace (Z.to_nat (start d + n) - Z.to_nat (start d))%nat with (Z.to_nat n) by lia.
  reflexivity.
Qed.

Lemma growdot_within_buffered_witness :
  inv sample_mid /\ dotlen sample_mid <= 3 /\
  start sample_mid + 3 <= bufio.Buffered (br sample_mid) /\
  growdot 3 sample_mid
  = Ret ((Some {| off := bufio.r (br sample_mid) + Z.to_nat (start sample_mid);
                  len := Z.to_nat 3 |}, None),
         set_pos sample_mid (start sample_mid + 3)).
Proof.
  assert (A : dotlen sample_mid <= 3) by (vm_compute; discriminate).
  assert (B : start sample_mid + 3 <= bufio.Buffered (br sample_mid))
    by (vm_compute; discriminate).
  split; [exact sample_mid_inv|]. split; [exact A|]. split; [exact B|].
  exact (@growdot_within_buffered sample_mid 3 sample_mid_inv A B).
Defined.

(** X19. discard(r, n) never takes more than n bytes: for n >= 0 it returns
    with some k <= n bytes gone from the front of the stream, k = n whenever
    it returns nil, and it does return nil whenever the reader can supply n
    bytes. *)
Theorem discard_takes_at_most_n (b : bufio.Reader) (n : Z) :
  bufio.wf b -> 0 <= n ->
  exists b' e k,
    discard b n = Ret (b', e) /\ bufio.wf b' /\
    Z.of_nat k <= n /\ (k <= length (bufio.pending b))%nat /\
    bufio.pending b' = skipn k (bufio.pending b) /\
    (e = None -> Z.of_nat k = n) /\
    (bufio.supplies b n -> e = None).
Proof.
  intros W Hn. unfold discard, CopyN_Discard.
  destruct (@Copy_Discard_Limit_spec
              (S (Z.to_nat n + length (io.chunks (bufio.rd b)))) b n 0 W)
    as (b' & k & e & HL & W' & _ & Kb & P' & K' & _ & Hsup); [right; lia|].
  rewrite HL. cbn [obind]. rewrite Z.add_0_l.
  assert (Hs : bufio.supplies b n -> Z.of_nat k = n).
  { intros S. now destruct (Hsup n ltac:(lia) S) as (_ & ? & _). }
  destruct (Z.of_nat k =? n) eqn:E.
  - apply Z.eqb_eq in E. cbn [obind]. exists b', None, k.
    split; [reflexivity|]. split; [exact W'|]. split; [lia|].
    split; [exact K'|]. split; [exact P'|]. split; auto.
  - apply Z.eqb_neq in E. destruct e as [e|]; cbn [obind].
    + exists b', (Some e), k. split; [reflexivity|]. split; [exact W'|].
      split; [lia|]. split; [exact K'|]. split; [exact P'|].
      split; [discriminate | intros S; specialize (Hs S); lia].
    + destruct (Z.of_nat k <? n) eqn:E2; cbn [obind].
      * exists b', (Some EOF), k. split; [reflexivity|]. split; [exact W'|].
        split; [lia|]. split; [exact K'|]. split; [exact P'|].
        split; [discriminate | intros S; specialize (Hs S); lia].
      * apply Z.ltb_ge in E2. lia.
Qed.

Lemma discard_takes_at_most_n_witness :
  bufio.wf (br sample_window) /\ 0 <= 5 /\
  exists b' e k,
    discard (br sample_window) 5 = Ret (b', e) /\ bufio.wf b' /\
    Z.of_nat k <= 5 /\ (k <= length (bufio.pending (br sample_window)))%nat /\
    bufio.pending b' = skipn k (bufio.pending (br sample_window)) /\
    (e = None -> Z.of_nat k = 5) /\
    (bufio.supplies (br sample_window) 5 -> e = None).
Proof.
  assert (W : bufio.wf (br sample_window)) by apply sample_window_inv.
  assert (N : 0 <= 5) by lia.
  split; [exact W|]. split; [exact N|].
  exact (@discard_takes_at_most_n (br sample_window) 5 W N).
Defined.
